(** * youtube-caption: a shallow embedding of the caption library and its checked properties

    The development follows the Go sources of the repository:
    - the current library ([validateVideoID], [makeRequestWithRetry],
      [findCaptionTrack], [DownloadWithContext]) and its export methods
      ([GetSubtitleText], [GetPlainText], [GetSRT], [GetVTT],
      [formatSRTTime], [formatVTTTime]);
    - the older single-file variant [caption.go], kept in module [Legacy].

    Go's [int], [int64] and [time.Duration] are modelled as [Z] with the
    64-bit wrap-around written out, [float64] as IEEE-754 binary64 through
    the executable specification [SpecFloat] (precision 53, emax 1024), and
    strings as byte strings ([String.string]). *)

From Stdlib Require Import ZArith List String Ascii Bool Lia.
From Stdlib Require Import SpecFloat DecimalString.
From Stdlib Require Import Permutation Sorted.
Import ListNotations.

Open Scope string_scope.
Open Scope list_scope.
Open Scope Z_scope.

(** String concatenation, Go's [+] on strings and [Builder.WriteString]. *)
Infix "+++" := String.append (right associativity, at level 60).

(* ================================================================== *)
(** * Part I: definitions *)
(* ================================================================== *)

(** ** Go integers (64-bit platforms) *)

Definition int64_min : Z := - 2 ^ 63.
Definition int64_max : Z := 2 ^ 63 - 1.

Definition in_int64 (n : Z) : bool := (int64_min <=? n) && (n <=? int64_max).

(** Two's-complement wrap-around of a mathematical integer into [int64]. *)
Definition wrap64 (n : Z) : Z := (n + 2 ^ 63) mod 2 ^ 64 - 2 ^ 63.

Definition int_add (a b : Z) : Z := wrap64 (a + b).
Definition int_mul (a b : Z) : Z := wrap64 (a * b).
(** Go's [/] and [%] on integers truncate towards zero. *)
Definition int_div (a b : Z) : Z := wrap64 (Z.quot a b).
Definition int_rem (a b : Z) : Z := Z.rem a b.

(** ** Go float64 *)

Definition float64 : Type := spec_float.

Definition f64_prec : Z := 53.
Definition f64_emax : Z := 1024.

Definition f64_mul : float64 -> float64 -> float64 := SFmul f64_prec f64_emax.
Definition f64_div : float64 -> float64 -> float64 := SFdiv f64_prec f64_emax.
Definition f64_add : float64 -> float64 -> float64 := SFadd f64_prec f64_emax.
Definition f64_sub : float64 -> float64 -> float64 := SFsub f64_prec f64_emax.
Definition f64_lt : float64 -> float64 -> bool := SFltb.
Definition f64_le : float64 -> float64 -> bool := SFleb.
Definition f64_eq : float64 -> float64 -> bool := SFeqb.

(** [float64(n)] for an integer [n]: round to nearest, ties to even. *)
Definition f64_of_int (n : Z) : float64 :=
  binary_normalize f64_prec f64_emax n 0 false.

(** The integer part of a finite float (truncation towards zero). *)
Definition f64_trunc (x : float64) : option Z :=
  match x with
  | S754_zero _ => Some 0
  | S754_finite s m e =>
      let a := if 0 <=? e then Z.shiftl (Zpos m) e else Z.shiftr (Zpos m) (- e) in
      Some (if s then - a else a)
  | S754_infinity _ | S754_nan => None
  end.

Definition is_nan (x : float64) : bool :=
  match x with S754_nan => true | _ => false end.

Section Conversion.

(** The Go specification leaves the result of converting a float that
    does not fit the integer type (too large, infinite, NaN) to the
    implementation; [unrepresentable] is that choice. *)
Variable unrepresentable : float64 -> Z.

(** [int64(x)], [int(x)] and [time.Duration(x)] for a float64 [x]. *)
Definition f64_to_int (x : float64) : Z :=
  match f64_trunc x with
  | Some n => if in_int64 n then n else wrap64 (unrepresentable x)
  | None => wrap64 (unrepresentable x)
  end.

End Conversion.

(** ** package time *)

Definition Duration : Type := Z.

Definition Nanosecond : Duration := 1.
Definition Millisecond : Duration := 1000000.
Definition Second : Duration := 1000000000.
Definition Minute : Duration := 60 * Second.
Definition Hour : Duration := 60 * Minute.

(** [d.Hours()], [d.Minutes()], [d.Seconds()], [d.Nanoseconds()]. *)
Definition Duration_Hours (d : Duration) : float64 :=
  let hour := int_div d Hour in
  let nsec := int_rem d Hour in
  f64_add (f64_of_int hour) (f64_div (f64_of_int nsec) (f64_of_int (60 * 60 * 1000000000))).

Definition Duration_Minutes (d : Duration) : float64 :=
  let min := int_div d Minute in
  let nsec := int_rem d Minute in
  f64_add (f64_of_int min) (f64_div (f64_of_int nsec) (f64_of_int (60 * 1000000000))).

Definition Duration_Seconds (d : Duration) : float64 :=
  let sec := int_div d Second in
  let nsec := int_rem d Second in
  f64_add (f64_of_int sec) (f64_div (f64_of_int nsec) (f64_of_int 1000000000)).

Definition Duration_Nanoseconds (d : Duration) : Z := d.

(** ** Bytes and strings *)

Definition byte_val (c : ascii) : N := N_of_ascii c.

Definition LF : ascii := ascii_of_N 10.
Definition newline : string := String LF EmptyString.

(** *** strings.TrimSpace

    [strings.TrimSpace] removes the leading and then the trailing white
    space of a UTF-8 string, where white space is [unicode.IsSpace]:
    U+0009..U+000D, U+0020, U+0085, U+00A0, U+1680, U+2000..U+200A, U+2028,
    U+2029, U+202F, U+205F and U+3000.  Go's decoder accepts only the
    shortest encoding of a code point, so a white-space rune sits at the
    head (or the tail) of the byte string exactly when one of the byte
    sequences below does. *)

Definition space1 (a : ascii) : bool :=
  match byte_val a with
  | 9 | 10 | 11 | 12 | 13 | 32 => true
  | _ => false
  end%N.

(** U+0085 = C2 85, U+00A0 = C2 A0. *)
Definition space2 (a b : ascii) : bool :=
  match byte_val a, byte_val b with
  | 194, 133 | 194, 160 => true
  | _, _ => false
  end%N.

(** U+1680 = E1 9A 80, U+2000..U+200A = E2 80 80..8A, U+2028 = E2 80 A8,
    U+2029 = E2 80 A9, U+202F = E2 80 AF, U+205F = E2 81 9F,
    U+3000 = E3 80 80. *)
Definition space3 (a b c : ascii) : bool :=
  match byte_val a, byte_val b, byte_val c with
  | 225, 154, 128 => true
  | 226, 128, z => ((128 <=? z) && (z <=? 138)) || (z =? 168) || (z =? 169) || (z =? 175)
  | 226, 129, 159 => true
  | 227, 128, 128 => true
  | _, _, _ => false
  end%N.

Section Trim.

(** The three tests, on the one, two or three bytes at the head. *)
Variable sp1 : ascii -> bool.
Variable sp2 : ascii -> ascii -> bool.
Variable sp3 : ascii -> ascii -> ascii -> bool.

(** Does the byte list start with a white-space rune? *)
Definition starts_space (l : list ascii) : bool :=
  match l with
  | a :: r1 =>
      sp1 a ||
      match r1 with
      | b :: r2 =>
          sp2 a b ||
          match r2 with
          | c :: _ => sp3 a b c
          | [] => false
          end
      | [] => false
      end
  | [] => false
  end.

(** Drop white-space runes from the head until another rune is met. *)
Fixpoint trim_head (l : list ascii) : list ascii :=
  match l with
  | a :: r1 =>
      if sp1 a then trim_head r1
      else
        match r1 with
        | b :: r2 =>
            if sp2 a b then trim_head r2
            else
              match r2 with
              | c :: r3 => if sp3 a b c then trim_head r3 else l
              | [] => l
              end
        | [] => l
        end
  | [] => []
  end.

End Trim.

Definition trimLeft (l : list ascii) : list ascii :=
  trim_head space1 space2 space3 l.

(** The tail is trimmed on the reversed byte list, where the encodings
    read back to front. *)
Definition trimRight (l : list ascii) : list ascii :=
  rev (trim_head space1 (fun a b => space2 b a) (fun a b c => space3 c b a) (rev l)).

Definition TrimSpace (s : string) : string :=
  string_of_list_ascii (trimRight (trimLeft (list_ascii_of_string s))).

(** ** package fmt: the integer verbs used by the library *)

(** Decimal digits of a non-negative integer. *)
Definition digits (n : Z) : string :=
  NilEmpty.string_of_uint (N.to_uint (Z.to_N n)).

Fixpoint zeros (k : nat) : string :=
  match k with
  | O => EmptyString
  | S k' => String "0" (zeros k')
  end.

(** [%d] *)
Definition fmt_d (n : Z) : string :=
  (if n <? 0 then "-" else "") +++ digits (Z.abs n).

(** [%0wd]: the sign counts towards the width, zeros pad the digits. *)
Definition fmt_0d (w : nat) (n : Z) : string :=
  let ds := digits (Z.abs n) in
  let p := if n <? 0 then Nat.pred w else w in
  (if n <? 0 then "-" else "") +++ zeros (p - String.length ds) +++ ds.

(** ** Time codes *)

Section TimeCodes.

Variable unrepresentable : float64 -> Z.

Let to_int := f64_to_int unrepresentable.

Definition formatSRTTime (seconds : float64) : string :=
  let t : Duration := to_int (f64_mul seconds (f64_of_int Second)) in
  let hours := to_int (Duration_Hours t) in
  let minutes := int_rem (to_int (Duration_Minutes t)) 60 in
  let secs := int_rem (to_int (Duration_Seconds t)) 60 in
  let millis := int_rem (int_div (Duration_Nanoseconds t) 1000000) 1000 in
  fmt_0d 2 hours +++ ":" +++ fmt_0d 2 minutes +++ ":" +++ fmt_0d 2 secs +++ "," +++ fmt_0d 3 millis.

Definition formatVTTTime (seconds : float64) : string :=
  let t : Duration := to_int (f64_mul seconds (f64_of_int Second)) in
  let hours := to_int (Duration_Hours t) in
  let minutes := int_rem (to_int (Duration_Minutes t)) 60 in
  let secs := int_rem (to_int (Duration_Seconds t)) 60 in
  let millis := int_rem (int_div (Duration_Nanoseconds t) 1000000) 1000 in
  fmt_0d 2 hours +++ ":" +++ fmt_0d 2 minutes +++ ":" +++ fmt_0d 2 secs +++ "." +++ fmt_0d 3 millis.

End TimeCodes.

(** The float64 constants of the checked scenarios. *)
Definition f64_zero : float64 := S754_zero false.
(** 3661.234 is not a binary64 number; the compiler takes the nearest one,
    0x1.c9a77ced91687p+11. *)
Definition f64_3661_234 : float64 := S754_finite false 8051138710017671 (-41).

(** ** package sort

    [sort.Slice] is a library routine whose algorithm the caller cannot
    rely on: it permutes the slice, is not stable, and leaves the slice
    ordered when [less] is a strict weak ordering of its elements.  The
    library is taken through that contract. *)

Section Orders.

Context {A : Type}.
Variable less : A -> A -> bool.

Definition strict_weak_on (l : list A) : Prop :=
  (forall x, In x l -> less x x = false) /\
  (forall x y z, In x l -> In y l -> In z l ->
                 less x y = true -> less y z = true -> less x z = true) /\
  (forall x y z, In x l -> In y l -> In z l ->
                 less x y = false -> less y z = false -> less x z = false).

(** No element is followed, anywhere later, by a smaller one. *)
Definition sorted_by (l : list A) : Prop :=
  StronglySorted (fun a b => less b a = false) l.

End Orders.

Class SliceSorter : Type := {
  sort_Slice : forall A : Type, (A -> A -> bool) -> list A -> list A;
  sort_Slice_perm : forall (A : Type) (less : A -> A -> bool) (l : list A),
      Permutation (sort_Slice A less l) l;
  sort_Slice_sorted : forall (A : Type) (less : A -> A -> bool) (l : list A),
      strict_weak_on less l -> sorted_by less (sort_Slice A less l)
}.

Arguments sort_Slice {_} {A} less l.

(** A sorter to run the library with: straight insertion, which is what
    [sort.Slice] does on short slices. *)
Fixpoint insert_sorted {A : Type} (less : A -> A -> bool) (x : A) (l : list A) : list A :=
  match l with
  | [] => [x]
  | y :: l' => if less x y then x :: y :: l' else y :: insert_sorted less x l'
  end.

Definition insertion_sort {A : Type} (less : A -> A -> bool) (l : list A) : list A :=
  fold_right (insert_sorted less) [] l.

(** ** The caption data model *)

Record CaptionTrack := {
  BaseURL : string;
  LanguageCode : string;
  Name_SimpleText : string;
  Kind : string
}.

Record CaptionSegment := {
  UTF8 : string;
  TOffsetMs : Z;
  AcAsrConf : Z
}.

Record CaptionEvent := {
  TStartMs : Z;
  Segments : list CaptionSegment
}.

Record Caption := {
  Events : list CaptionEvent
}.

Record SubtitleText := {
  StartTime : float64;
  EndTime : float64;
  Text : string
}.

Record Options := {
  Language : string;
  Options_Kind : string;
  Timeout : Duration;
  MaxRetries : Z;
  UserAgent : string
}.

(** ** Export methods *)

(** [float64(ms) / 1000.0] *)
Definition ms_to_sec (ms : Z) : float64 := f64_div (f64_of_int ms) (f64_of_int 1000).

(** One turn of the inner loop of [GetSubtitleText]: the builder [text]
    and the running [endTime] after segment [seg]. *)
Definition segment_step (tStartMs : Z) (st : string * float64) (seg : CaptionSegment)
  : string * float64 :=
  let '(text, endTime) := st in
  if negb (UTF8 seg =? newline)%string then
    let text := text +++ UTF8 seg in
    let segEndTime := ms_to_sec (int_add tStartMs (TOffsetMs seg)) in
    if f64_lt endTime segEndTime then (text, segEndTime) else (text, endTime)
  else (text, endTime).

(** One turn of the outer loop: [result] after [event]. *)
Definition event_step (result : list SubtitleText) (event : CaptionEvent) : list SubtitleText :=
  if (List.length (Segments event) =? 0)%nat then result
  else
    let startTime := ms_to_sec (TStartMs event) in
    let '(text, endTime) :=
      fold_left (segment_step (TStartMs event)) (Segments event) (EmptyString, startTime) in
    let textStr := TrimSpace text in
    if negb (textStr =? "")%string then
      result ++ [ {| StartTime := startTime; EndTime := endTime; Text := textStr |} ]
    else result.

(** The comparison handed to [sort.Slice]. *)
Definition less_StartTime (a b : SubtitleText) : bool := f64_lt (StartTime a) (StartTime b).

Section ExportMethods.

Context {sorter : SliceSorter}.
Variable unrepresentable : float64 -> Z.

Definition GetSubtitleText (c : Caption) : list SubtitleText :=
  let result := fold_left event_step (Events c) [] in
  sort_Slice less_StartTime result.

Definition GetPlainText (c : Caption) : string :=
  let subtitles := GetSubtitleText c in
  let result := fold_left (fun result sub => (result +++ Text sub) +++ " ") subtitles EmptyString in
  TrimSpace result.

(** The loop of [GetSRT], with the index [i] of the range clause. *)
Fixpoint GetSRT_loop (i : Z) (subtitles : list SubtitleText) (result : string) : string :=
  match subtitles with
  | [] => result
  | sub :: rest =>
      let result := result +++ (fmt_d (int_add i 1) +++ newline) in
      let result := result +++
        (formatSRTTime unrepresentable (StartTime sub) +++ " --> " +++
         formatSRTTime unrepresentable (EndTime sub) +++ newline) in
      let result := result +++ Text sub in
      let result := result +++ (newline +++ newline) in
      GetSRT_loop (i + 1) rest result
  end.

Definition GetSRT (c : Caption) : string :=
  let subtitles := GetSubtitleText c in
  GetSRT_loop 0 subtitles EmptyString.

Fixpoint GetVTT_loop (subtitles : list SubtitleText) (result : string) : string :=
  match subtitles with
  | [] => result
  | sub :: rest =>
      let result := result +++
        (formatVTTTime unrepresentable (StartTime sub) +++ " --> " +++
         formatVTTTime unrepresentable (EndTime sub) +++ newline) in
      let result := result +++ Text sub in
      let result := result +++ (newline +++ newline) in
      GetVTT_loop rest result
  end.

Definition GetVTT (c : Caption) : string :=
  let subtitles := GetSubtitleText c in
  let result := EmptyString +++ ("WEBVTT" +++ newline +++ newline) in
  GetVTT_loop subtitles result.

End ExportMethods.

(** ** Errors *)

(** Failures raised inside the standard library. *)
Inductive lib_failure :=
| DoFailed (msg : string)    (* client.Do: DNS, connection, deadline, ... *)
| BadURL                     (* http.NewRequest *)
| ReadFailed                 (* io.ReadAll *)
| BadJSON.                   (* json.Unmarshal *)

(** Go error values: the three sentinels, [fmt.Errorf] without and with a
    wrapped cause ([%w]), and library errors.  The library never builds a
    [backoff.PermanentError]. *)
Inductive error :=
| ErrInvalidVideoID
| ErrNoCaptionsFound
| ErrRateLimited
| Errorf (msg : string)
| Wrapf (msg : string) (cause : error)
| LibError (f : lib_failure).

Inductive result (A : Type) :=
| Ok (a : A)
| Err (e : error).

Arguments Ok {A} a.
Arguments Err {A} e.

(** ** Video identifiers *)

Definition in_range (lo hi : N) (c : ascii) : bool :=
  ((lo <=? byte_val c) && (byte_val c <=? hi))%N.

(** The class [[a-zA-Z0-9_-]]. *)
Definition videoID_class (c : ascii) : bool :=
  in_range 97 122 c || in_range 65 90 c || in_range 48 57 c ||
  (byte_val c =? 95)%N || (byte_val c =? 45)%N.

(** [^[cls]{n}$] against a whole string: exactly [n] bytes of the class
    between the two anchors ([$] is the end of the text in Go). *)
Fixpoint match_class_repeat (cls : ascii -> bool) (n : nat) (s : string) : bool :=
  match n, s with
  | O, EmptyString => true
  | S n', String c s' => cls c && match_class_repeat cls n' s'
  | _, _ => false
  end.

Definition videoIDRegex_MatchString (s : string) : bool :=
  match_class_repeat videoID_class 11 s.

Definition validateVideoID (videoID : string) : option error :=
  if (videoID =? "")%string then Some ErrInvalidVideoID
  else if negb (videoIDRegex_MatchString videoID) then Some ErrInvalidVideoID
  else None.

(** ** Track selection *)

(** The first loop of [findCaptionTrack]. *)
Fixpoint find_language_kind (tracks : list CaptionTrack) (opts : Options) : option CaptionTrack :=
  match tracks with
  | [] => None
  | track :: rest =>
      if (LanguageCode track =? Language opts)%string && (Kind track =? Options_Kind opts)%string then
        if negb (BaseURL track =? "")%string then Some track
        else find_language_kind rest opts
      else find_language_kind rest opts
  end.

(** The second loop. *)
Fixpoint find_language (tracks : list CaptionTrack) (opts : Options) : option CaptionTrack :=
  match tracks with
  | [] => None
  | track :: rest =>
      if (LanguageCode track =? Language opts)%string then
        if negb (BaseURL track =? "")%string then Some track
        else find_language rest opts
      else find_language rest opts
  end.

Definition findCaptionTrack (tracks : list CaptionTrack) (opts : Options) : result CaptionTrack :=
  match find_language_kind tracks opts with
  | Some track => Ok track
  | None =>
      match find_language tracks opts with
      | Some track => Ok track
      | None =>
          match tracks with
          | track0 :: _ =>
              if negb (BaseURL track0 =? "")%string then Ok track0
              else Err ErrNoCaptionsFound
          | [] => Err ErrNoCaptionsFound
          end
      end
  end.

(** ** The network, as the library sees it *)

(** The JSON document of [makeRequestData], before serialization. *)
Record PlayerRequest := {
  ClientName : string;
  ClientVersion : string;
  VideoID : string
}.

Record Request := {
  Method : string;
  URL : string;
  Header : list (string * string);
  Payload : option PlayerRequest
}.

(** A response body, through the three things the library does with it:
    [io.ReadAll], and [json.Unmarshal] into the player reply or into a
    [Caption] ([None] when the document does not decode). *)
Record Body := {
  readable : bool;
  player_json : option (list CaptionTrack);
  caption_json : option Caption
}.

Record Response := {
  StatusCode : Z;
  Status : string;
  RespBody : Body
}.

(** The two outcomes of [client.Do]. *)
Inductive DoResult :=
| DoError (msg : string)
| DoResponse (r : Response).

(** What lies outside the process: the answer to the [k]-th request sent,
    the time it takes, the [k]-th draw of [rand.Float64], and which URLs
    [http.NewRequest] accepts. *)
Record Env := {
  serve : nat -> Request -> DoResult;
  latency : nat -> Duration;
  random : nat -> float64;
  valid_url : string -> bool
}.

(** What the process has done so far: the clock (ns), the requests sent,
    the number of random draws. *)
Record World := {
  now : Z;
  sent : list Request;
  draws : nat
}.

Definition client_Do (env : Env) (req : Request) (w : World) : DoResult * World :=
  let k := List.length (sent w) in
  (serve env k req,
   {| now := now w + latency env k; sent := sent w ++ [req]; draws := draws w |}).

Definition sleep (d : Duration) (w : World) : World :=
  {| now := now w + d; sent := sent w; draws := draws w |}.

(** ** package backoff (github.com/cenkalti/backoff/v4)

    The repository imports this library and does not hold its sources;
    the definitions below follow version 4 of it: [ExponentialBackOff]
    with its defaults, [Reset], [NextBackOff] and the loop of [Retry].
    The clock and [rand.Float64] are read from the [World] and the [Env]. *)

Record ExponentialBackOff := {
  InitialInterval : Duration;
  RandomizationFactor : float64;
  Multiplier : float64;
  MaxInterval : Duration;
  MaxElapsedTime : Duration;
  currentInterval : Duration;
  startTime : Z
}.

(** [backoff.Stop] *)
Definition Stop : Duration := -1.

Definition DefaultInitialInterval : Duration := 500 * Millisecond.
(** 0.5 and 1.5, both binary64 numbers. *)
Definition DefaultRandomizationFactor : float64 := f64_div (f64_of_int 1) (f64_of_int 2).
Definition DefaultMultiplier : float64 := f64_div (f64_of_int 3) (f64_of_int 2).
Definition DefaultMaxInterval : Duration := 60 * Second.
Definition DefaultMaxElapsedTime : Duration := 15 * Minute.

Definition with_MaxElapsedTime (b : ExponentialBackOff) (d : Duration) : ExponentialBackOff :=
  {| InitialInterval := InitialInterval b;
     RandomizationFactor := RandomizationFactor b;
     Multiplier := Multiplier b;
     MaxInterval := MaxInterval b;
     MaxElapsedTime := d;
     currentInterval := currentInterval b;
     startTime := startTime b |}.

Definition with_currentInterval (b : ExponentialBackOff) (d : Duration) : ExponentialBackOff :=
  {| InitialInterval := InitialInterval b;
     RandomizationFactor := RandomizationFactor b;
     Multiplier := Multiplier b;
     MaxInterval := MaxInterval b;
     MaxElapsedTime := MaxElapsedTime b;
     currentInterval := d;
     startTime := startTime b |}.

(** [b.Reset()]: back to the initial interval, the clock read anew. *)
Definition Reset (b : ExponentialBackOff) (w : World) : ExponentialBackOff :=
  {| InitialInterval := InitialInterval b;
     RandomizationFactor := RandomizationFactor b;
     Multiplier := Multiplier b;
     MaxInterval := MaxInterval b;
     MaxElapsedTime := MaxElapsedTime b;
     currentInterval := InitialInterval b;
     startTime := now w |}.

Definition NewExponentialBackOff (w : World) : ExponentialBackOff :=
  Reset {| InitialInterval := DefaultInitialInterval;
           RandomizationFactor := DefaultRandomizationFactor;
           Multiplier := DefaultMultiplier;
           MaxInterval := DefaultMaxInterval;
           MaxElapsedTime := DefaultMaxElapsedTime;
           currentInterval := 0;
           startTime := 0 |} w.

Section BackOff.

Variable unrepresentable : float64 -> Z.

Let to_int := f64_to_int unrepresentable.

Definition getRandomValueFromInterval
           (randomizationFactor random : float64) (currentInterval : Duration) : Duration :=
  if f64_eq randomizationFactor (f64_of_int 0) then currentInterval
  else
    let delta := f64_mul randomizationFactor (f64_of_int currentInterval) in
    let minInterval := f64_sub (f64_of_int currentInterval) delta in
    let maxInterval := f64_add (f64_of_int currentInterval) delta in
    to_int (f64_add minInterval
              (f64_mul random (f64_add (f64_sub maxInterval minInterval) (f64_of_int 1)))).

Definition incrementCurrentInterval (b : ExponentialBackOff) : ExponentialBackOff :=
  if f64_le (f64_div (f64_of_int (MaxInterval b)) (Multiplier b)) (f64_of_int (currentInterval b))
  then with_currentInterval b (MaxInterval b)
  else with_currentInterval b
         (to_int (f64_mul (f64_of_int (currentInterval b)) (Multiplier b))).

(** [b.NextBackOff()]: the delay before the next attempt, or [Stop] when
    the delay would carry the elapsed time past [MaxElapsedTime]. *)
Definition NextBackOff (env : Env) (b : ExponentialBackOff) (w : World)
  : Duration * ExponentialBackOff * World :=
  let elapsed := now w - startTime b in
  let next := getRandomValueFromInterval (RandomizationFactor b)
                (random env (draws w)) (currentInterval b) in
  let w' := {| now := now w; sent := sent w; draws := S (draws w) |} in
  let b' := incrementCurrentInterval b in
  if negb (MaxElapsedTime b =? 0) && (MaxElapsedTime b <? int_add elapsed next)
  then (Stop, b', w')
  else (next, b', w').

(** The loop of [backoff.Retry].  [operation] is a closure: [S] is the
    state of the variables it captures.  Every error is retried (none is
    a [PermanentError]); the loop ends on success or on [Stop].  [fuel]
    bounds the number of attempts the model follows. *)
Fixpoint Retry_loop {S : Type} (env : Env) (fuel : nat)
         (operation : S -> World -> option error * S * World)
         (b : ExponentialBackOff) (s : S) (w : World)
  : option (option error * S * World) :=
  match fuel with
  | O => None
  | Datatypes.S fuel' =>
      let '(err, s1, w1) := operation s w in
      match err with
      | None => Some (None, s1, w1)
      | Some e =>
          let '(next, b', w2) := NextBackOff env b w1 in
          if next =? Stop then Some (Some e, s1, w2)
          else Retry_loop env fuel' operation b' s1 (sleep next w2)
      end
  end.

Definition Retry {S : Type} (env : Env) (fuel : nat)
           (operation : S -> World -> option error * S * World)
           (b : ExponentialBackOff) (s : S) (w : World)
  : option (option error * S * World) :=
  Retry_loop env fuel operation (Reset b w) s w.

(** ** The transport *)

(** The closure [operation] of [makeRequestWithRetry]; the captured
    variable is [resp]. *)
Definition operation (env : Env) (req : Request) (resp : option Response) (w : World)
  : option error * option Response * World :=
  let '(r, w') := client_Do env req w in
  match r with
  | DoError msg => (Some (LibError (DoFailed msg)), None, w')
  | DoResponse rsp =>
      if StatusCode rsp =? 200 then (None, Some rsp, w')
      else if StatusCode rsp =? 429 then (Some ErrRateLimited, Some rsp, w')
      else if StatusCode rsp =? 404 then (Some ErrNoCaptionsFound, Some rsp, w')
      else if 500 <=? StatusCode rsp then
        (Some (Errorf ("server error: HTTP " +++ fmt_d (StatusCode rsp))), Some rsp, w')
      else
        (Some (Errorf ("HTTP " +++ fmt_d (StatusCode rsp) +++ ": " +++ Status rsp)), Some rsp, w')
  end.

Definition makeRequestWithRetry (env : Env) (fuel : nat) (req : Request) (maxRetries : Z)
           (w : World) : option (option Response * option error * World) :=
  let backoffConfig := NewExponentialBackOff w in
  let backoffConfig :=
    with_MaxElapsedTime backoffConfig (int_mul (int_mul maxRetries 10) Second) in
  match Retry env fuel (operation env req) backoffConfig None w with
  | Some (err, resp, w') => Some (resp, err, w')
  | None => None
  end.

(** ** The two round trips *)

Definition playerURL : string :=
  "https://www.youtube.com/youtubei/v1/player?prettyPrint=false".
Definition defaultUA : string :=
  "Mozilla/5.0 (Macintosh; Intel Mac OS X 10_15_7) AppleWebKit/605.1.15 (KHTML, like Gecko) Version/15.5 Safari/605.1.15".
Definition defaultTimeout : Duration := 30 * Second.
Definition defaultMaxRetries : Z := 3.

Definition DefaultOptions : Options :=
  {| Language := "en"; Options_Kind := "asr"; Timeout := defaultTimeout;
     MaxRetries := defaultMaxRetries; UserAgent := defaultUA |}.

Definition makeRequestData (videoID : string) : PlayerRequest :=
  {| ClientName := "WEB"; ClientVersion := "2.20250925.01.00"; VideoID := videoID |}.

Definition extractCaptionTracks (resp : Response) : result (list CaptionTrack) :=
  if negb (readable (RespBody resp)) then
    Err (Wrapf "failed to read response: " (LibError ReadFailed))
  else
    match player_json (RespBody resp) with
    | None => Err (Wrapf "failed to unmarshal response: " (LibError BadJSON))
    | Some tracks =>
        if (List.length tracks =? 0)%nat then Err ErrNoCaptionsFound else Ok tracks
    end.

Definition requestCaptionTrack (env : Env) (fuel : nat) (videoID : string) (opts : Options)
           (w : World) : option (result CaptionTrack * World) :=
  let data := makeRequestData videoID in
  let req := {| Method := "POST"; URL := playerURL;
                Header := [("Content-Type", "application/json"); ("User-Agent", UserAgent opts)];
                Payload := Some data |} in
  match makeRequestWithRetry env fuel req (MaxRetries opts) w with
  | None => None
  | Some (_, Some err, w') => Some (Err (Wrapf "failed to get response: " err), w')
  | Some (None, None, w') => None  (* a nil response without an error does not occur *)
  | Some (Some resp, None, w') =>
      match extractCaptionTracks resp with
      | Err err => Some (Err (Wrapf "failed to extract caption tracks: " err), w')
      | Ok tracks =>
          match findCaptionTrack tracks opts with
          | Err err => Some (Err err, w')
          | Ok track => Some (Ok track, w')
          end
      end
  end.

Definition requestTimedText (env : Env) (fuel : nat) (track : CaptionTrack) (opts : Options)
           (w : World) : option (result Caption * World) :=
  let captionURL := BaseURL track +++ "&fmt=json3" in
  if negb (valid_url env captionURL) then
    Some (Err (Wrapf "failed to create request: " (LibError BadURL)), w)
  else
    let req := {| Method := "GET"; URL := captionURL;
                  Header := [("User-Agent", UserAgent opts)];
                  Payload := None |} in
    match makeRequestWithRetry env fuel req (MaxRetries opts) w with
    | None => None
    | Some (_, Some err, w') => Some (Err (Wrapf "failed to get response: " err), w')
    | Some (None, None, w') => None
    | Some (Some resp, None, w') =>
        if negb (readable (RespBody resp)) then
          Some (Err (Wrapf "failed to read subtitle response: " (LibError ReadFailed)), w')
        else
          match caption_json (RespBody resp) with
          | None =>
              Some (Err (Wrapf "failed to unmarshal subtitle response: " (LibError BadJSON)), w')
          | Some caption => Some (Ok caption, w')
          end
    end.

(** [opts] may be nil. *)
Definition DownloadWithContext (env : Env) (fuel : nat) (videoID : string)
           (opts : option Options) (w : World) : option (result Caption * World) :=
  match validateVideoID videoID with
  | Some err => Some (Err err, w)
  | None =>
      let opts := match opts with None => DefaultOptions | Some o => o end in
      match requestCaptionTrack env fuel videoID opts w with
      | None => None
      | Some (Err err, w1) => Some (Err err, w1)
      | Some (Ok track, w1) =>
          match requestTimedText env fuel track opts w1 with
          | None => None
          | Some (Err err, w2) => Some (Err err, w2)
          | Some (Ok caption, w2) => Some (Ok caption, w2)
          end
      end
  end.

(** [context.WithTimeout] sets a deadline on the calls below; the
    network [env] decides which attempts it cuts short. *)
Definition DownloadWithOptions (env : Env) (fuel : nat) (videoID : string)
           (opts : Options) (w : World) : option (result Caption * World) :=
  DownloadWithContext env fuel videoID (Some opts) w.

Definition Download (env : Env) (fuel : nat) (videoID : string) (w : World)
  : option (result Caption * World) :=
  DownloadWithOptions env fuel videoID DefaultOptions w.

End BackOff.

(** ** The older transport of caption.go *)

Module Legacy.

Section Transport.

Variable unrepresentable : float64 -> Z.

(** Only 5xx and 429 make the closure fail; any other status ends the
    loop with a nil error. *)
Definition operation (env : Env) (req : Request) (resp : option Response) (w : World)
  : option error * option Response * World :=
  let '(r, w') := client_Do env req w in
  match r with
  | DoError msg => (Some (LibError (DoFailed msg)), None, w')
  | DoResponse rsp =>
      if (500 <=? StatusCode rsp) || (StatusCode rsp =? 429) then
        (Some (Errorf ("HTTP " +++ fmt_d (StatusCode rsp) +++ ": " +++ Status rsp)),
         Some rsp, w')
      else (None, Some rsp, w')
  end.

Definition makeRequestWithRetry (env : Env) (fuel : nat) (req : Request) (w : World)
  : option (option Response * option error * World) :=
  let backoffConfig := NewExponentialBackOff w in
  let backoffConfig := with_MaxElapsedTime backoffConfig (int_mul 30 Second) in
  match Retry unrepresentable env fuel (operation env req) backoffConfig None w with
  | Some (err, resp, w') => Some (resp, err, w')
  | None => None
  end.

(** The status check the callers of the older transport make. *)
Definition requestTimedText (env : Env) (fuel : nat) (captionUrl : string) (w : World)
  : option (result Caption * World) :=
  if negb (valid_url env captionUrl) then
    Some (Err (Wrapf "failed to create request: " (LibError BadURL)), w)
  else
    let req := {| Method := "GET"; URL := captionUrl; Header := []; Payload := None |} in
    match makeRequestWithRetry env fuel req w with
    | None => None
    | Some (_, Some err, w') => Some (Err (Wrapf "failed to get response: " err), w')
    | Some (None, None, w') => None
    | Some (Some resp, None, w') =>
        if negb (StatusCode resp =? 200) then
          Some (Err (Errorf ("request returned status " +++ fmt_d (StatusCode resp))), w')
        else if negb (readable (RespBody resp)) then
          Some (Err (Wrapf "failed to read subtitle response: " (LibError ReadFailed)), w')
        else
          match caption_json (RespBody resp) with
          | None =>
              Some (Err (Wrapf "failed to unmarshal subtitle response: " (LibError BadJSON)), w')
          | Some caption => Some (Ok caption, w')
          end
    end.

End Transport.

End Legacy.

(** ** Vocabulary of the statements *)

(** [first_match p l t]: [t] is the first element of [l] that passes [p]. *)
Definition first_match {A : Type} (p : A -> bool) (l : list A) (t : A) : Prop :=
  exists l1 l2, l = l1 ++ t :: l2 /\ p t = true /\ Forall (fun x => p x = false) l1.

(** The three tiers of the track selection policy. *)
Definition has_url (t : CaptionTrack) : bool := negb (BaseURL t =? "")%string.

Definition tier1 (language kind : string) (t : CaptionTrack) : bool :=
  (LanguageCode t =? language)%string && (Kind t =? kind)%string && has_url t.

Definition tier2 (language : string) (t : CaptionTrack) : bool :=
  (LanguageCode t =? language)%string && has_url t.

(** Replace every byte [old] by [new]; count the bytes equal to [c]. *)
Fixpoint replace_byte (old new : ascii) (s : string) : string :=
  match s with
  | EmptyString => EmptyString
  | String c s' => String (if Ascii.eqb c old then new else c) (replace_byte old new s')
  end.

Fixpoint count_byte (c : ascii) (s : string) : nat :=
  match s with
  | EmptyString => O
  | String d s' => ((if Ascii.eqb d c then 1 else 0) + count_byte c s')%nat
  end.

(** [m] is the greatest element of [l] for the float64 order. *)
Definition f64_greatest (m : float64) (l : list float64) : Prop :=
  In m l /\ Forall (fun x => f64_le x m = true) l.

(** The segments that are not the newline marker. *)
Definition text_segments (event : CaptionEvent) : list CaptionSegment :=
  filter (fun seg => negb (UTF8 seg =? newline)%string) (Segments event).

(** The end time of a segment, [(tStartMs + tOffsetMs) / 1000] in the
    arithmetic of the code. *)
Definition segment_end (event : CaptionEvent) (seg : CaptionSegment) : float64 :=
  ms_to_sec (int_add (TStartMs event) (TOffsetMs seg)).

(** The texts of a list of segments, one after the other. *)
Definition joined (segs : list CaptionSegment) : string :=
  fold_right String.append EmptyString (map UTF8 segs).

Definition event_text (event : CaptionEvent) : string :=
  TrimSpace (joined (text_segments event)).

(** The span of an event as the specification words it, with the end time
    as the greatest of the segment ends, or the start when no segment
    counts. *)
Definition span_as_specified (event : CaptionEvent) (sp : SubtitleText) : Prop :=
  StartTime sp = ms_to_sec (TStartMs event)
  /\ Text sp = event_text event
  /\ (text_segments event = [] -> EndTime sp = StartTime sp)
  /\ (text_segments event <> [] ->
      f64_greatest (EndTime sp) (map (segment_end event) (text_segments event))).

(** The span of an event as the code builds it: the end time is the
    greatest of the start and the segment ends. *)
Definition span_of_event (event : CaptionEvent) (sp : SubtitleText) : Prop :=
  StartTime sp = ms_to_sec (TStartMs event)
  /\ Text sp = event_text event
  /\ f64_greatest (EndTime sp)
       (StartTime sp :: map (segment_end event) (text_segments event)).

(** An event gives a span when it has a segment and its trimmed text is
    not empty. *)
Definition gives_span (event : CaptionEvent) : bool :=
  negb (List.length (Segments event) =? 0)%nat && negb (event_text event =? "")%string.

(** The extractor follows [rel]: its output is the sorted list of one
    span per event that gives one, each related to its event by [rel]. *)
Definition extraction_follows {sorter : SliceSorter}
           (rel : CaptionEvent -> SubtitleText -> Prop) (c : Caption) : Prop :=
  exists spans,
    Forall2 rel (filter gives_span (Events c)) spans
    /\ GetSubtitleText c = sort_Slice less_StartTime spans.

(** 1.0 and 1.5 as binary64 numbers. *)
Definition f64_1_0 : float64 := S754_finite false 4503599627370496 (-52).
Definition f64_1_5 : float64 := S754_finite false 6755399441055744 (-52).

(** The events of the extraction scenarios. *)
Definition segment (text : string) (offset : Z) : CaptionSegment :=
  {| UTF8 := text; TOffsetMs := offset; AcAsrConf := 0 |}.

Definition hello_world : CaptionEvent :=
  {| TStartMs := 1000; Segments := [segment "Hello" 0; segment " world" 500] |}.

Definition newline_only : CaptionEvent :=
  {| TStartMs := 1000; Segments := [segment newline 0] |}.

Definition early_segment : CaptionEvent :=
  {| TStartMs := 1000; Segments := [segment "Hi" (-500)] |}.

(** ** Further vocabulary: the float order, spans, scenarios *)

Definition comma : ascii := ascii_of_N 44.

Definition period : ascii := ascii_of_N 46.

(** Numbers ordered as [SFcompare] orders them: by class, then exponent,
    then mantissa. *)
Definition f64_key (x : float64) : Z * Z * Z :=
  match x with
  | S754_infinity true => (-2, 0, 0)
  | S754_finite true m e => (-1, - e, - Zpos m)
  | S754_zero _ => (0, 0, 0)
  | S754_nan => (0, 0, 0)
  | S754_finite false m e => (1, e, Zpos m)
  | S754_infinity false => (2, 0, 0)
  end.

Definition lex_lt (a b : Z * Z * Z) : Prop :=
  let '(a1, a2, a3) := a in
  let '(b1, b2, b3) := b in
  a1 < b1 \/ (a1 = b1 /\ (a2 < b2 \/ (a2 = b2 /\ a3 < b3))).

(** The span the loop appends for an event that gives one. *)
Definition built_span (event : CaptionEvent) : SubtitleText :=
  {| StartTime := ms_to_sec (TStartMs event);
     EndTime := snd (fold_left (segment_step (TStartMs event)) (Segments event)
                       (EmptyString, ms_to_sec (TStartMs event)));
     Text := event_text event |}.

(** What every span of the loop satisfies. *)
Definition well_formed_span (sp : SubtitleText) : Prop :=
  is_nan (StartTime sp) = false
  /\ Text sp <> ""
  /\ TrimSpace (Text sp) = Text sp
  /\ f64_le (StartTime sp) (EndTime sp) = true.

(** The tracks of the two selection scenarios. *)
Definition track (url language kind : string) : CaptionTrack :=
  {| BaseURL := url; LanguageCode := language; Name_SimpleText := ""; Kind := kind |}.

Definition request (language kind : string) : Options :=
  {| Language := language; Options_Kind := kind; Timeout := defaultTimeout;
     MaxRetries := defaultMaxRetries; UserAgent := defaultUA |}.

(** The reading of C1 as it is written: with no track in the first two
    tiers, the selector answers with the first track of the list that has
    a URL, and fails only when no track has one. *)
Definition fallback_scans_the_list (tracks : list CaptionTrack) (opts : Options) : Prop :=
  Forall (fun t => tier1 (Language opts) (Options_Kind opts) t = false) tracks ->
  Forall (fun t => tier2 (Language opts) t = false) tracks ->
  (forall t, first_match has_url tracks t -> findCaptionTrack tracks opts = Ok t)
  /\ (findCaptionTrack tracks opts = Err ErrNoCaptionsFound ->
      Forall (fun t => has_url t = false) tracks).

(** A caption of one event without segment and one of newline markers. *)
Definition silent_caption : Caption :=
  {| Events := [ {| TStartMs := 0; Segments := [] |}; newline_only ] |}.

(** The 64 bytes a video identifier may hold. *)
Definition videoID_alphabet : string :=
  "ABCDEFGHIJKLMNOPQRSTUVWXYZabcdefghijklmnopqrstuvwxyz0123456789_-".

Definition in_alphabet (c : ascii) : bool :=
  existsb (Ascii.eqb c) (list_ascii_of_string videoID_alphabet).

(** A network that answers nothing useful, and the world at start. *)
Definition no_body : Body :=
  {| readable := true; player_json := None; caption_json := None |}.

Definition answer (code : Z) : DoResult :=
  DoResponse {| StatusCode := code; Status := fmt_d code; RespBody := no_body |}.

Definition f64_0_5 : float64 := S754_finite false 4503599627370496 (-53).

(** The network that answers the [k]-th request with the [k]-th code of
    [codes] ([code] beyond the list), each answer after [delay]
    nanoseconds, with every random draw at 0.5. *)
Definition scripted (codes : list Z) (code : Z) (delay : Duration) : Env :=
  {| serve := fun k _ => answer (nth k codes code);
     latency := fun _ => delay;
     random := fun _ => f64_0_5;
     valid_url := fun _ => true |}.

Definition start_world : World := {| now := 0; sent := []; draws := 0 |}.

(** The statuses the transport means to retry, and the error each gets. *)
Definition retryable (code : Z) : Prop := 500 <= code \/ code = 429.

Definition classified (code : Z) : error :=
  if code =? 429 then ErrRateLimited else Errorf ("server error: HTTP " +++ fmt_d code).

(** What a call of the transport came to: the status of the response it
    returns, its error, the number of requests sent and the clock. *)
Definition summary (r : option (option Response * option error * World))
  : option (option Z * option error * nat * Z) :=
  match r with
  | None => None
  | Some (resp, err, w) => Some (option_map StatusCode resp, err, List.length (sent w), now w)
  end.

Definition get_request : Request :=
  {| Method := "GET"; URL := "https://example.invalid/api/timedtext?v=x&fmt=json3";
     Header := []; Payload := None |}.


(** The thirteen intervals a policy with the default settings goes
    through: the first twelve once each, the cap from then on. *)
Definition interval_values : list Duration :=
  [500000000; 750000000; 1125000000; 1687500000; 2531250000; 3796875000;
   5695312500; 8542968750; 12814453125; 19221679687; 28832519530;
   43248779295; 60000000000].

(** A policy of the transport at any point of a call: the default
    settings, the budget [budget], and the interval at one of its thirteen
    values. *)
Definition policy_of_transport (budget : Duration) (b : ExponentialBackOff) : Prop :=
  RandomizationFactor b = DefaultRandomizationFactor
  /\ Multiplier b = DefaultMultiplier
  /\ MaxInterval b = DefaultMaxInterval
  /\ MaxElapsedTime b = budget
  /\ In (currentInterval b) interval_values.

(** A network on which no attempt succeeds: whatever it answers is not
    a 200.  A network whose random draws are all 0.5. *)
Definition never_ok (env : Env) : Prop :=
  forall k req rsp, serve env k req = DoResponse rsp -> StatusCode rsp <> 200.

Definition draws_at_half (env : Env) : Prop :=
  forall k, random env k = f64_0_5.

(** A network whose answers take a time that is not negative and stays
    far below the range of [int64] nanoseconds (2^62 ns is 146 years). *)
Definition bounded_latency (env : Env) : Prop :=
  forall k, 0 <= latency env k <= 2 ^ 62.

(** The options of the usage example of the README: the language and the
    timeout are set, the other fields are left at their zero values. *)
Definition readme_options : Options :=
  {| Language := "en"; Options_Kind := ""; Timeout := 15 * Second;
     MaxRetries := 0; UserAgent := "" |}.

(** A network that answers 429 to everything. *)
Definition always_429 (env : Env) : Prop :=
  forall k req, exists rsp, serve env k req = DoResponse rsp /\ StatusCode rsp = 429.

(** ** More of the library: listing the tracks *)

Section AvailableTracks.

Variable unrepresentable : float64 -> Z.

(** [GetAvailableTracksWithContext]: the same POST as the download, with
    the default options, and the decoded list handed back as it is. *)
Definition GetAvailableTracksWithContext (env : Env) (fuel : nat) (videoID : string)
           (w : World) : option (result (list CaptionTrack) * World) :=
  match validateVideoID videoID with
  | Some err => Some (Err err, w)
  | None =>
      let opts := DefaultOptions in
      let data := makeRequestData videoID in
      let req := {| Method := "POST"; URL := playerURL;
                    Header := [("Content-Type", "application/json"); ("User-Agent", UserAgent opts)];
                    Payload := Some data |} in
      match makeRequestWithRetry unrepresentable env fuel req (MaxRetries opts) w with
      | None => None
      | Some (_, Some err, w') => Some (Err (Wrapf "failed to get response: " err), w')
      | Some (None, None, w') => None
      | Some (Some resp, None, w') => Some (extractCaptionTracks resp, w')
      end
  end.

Definition GetAvailableTracks (env : Env) (fuel : nat) (videoID : string) (w : World)
  : option (result (list CaptionTrack) * World) :=
  GetAvailableTracksWithContext env fuel videoID w.

End AvailableTracks.

(** ** More of caption.go: the whole older pipeline *)

Module LegacyPipeline.

Section Pipeline.

Variable unrepresentable : float64 -> Z.

Definition legacyUA : string :=
  "Mozilla/5.0 (Macintosh; Intel Mac OS X 10_15_7) AppleWebKit/605.1.15 (KHTML, like Gecko) Version/15.5 Safari/605.1.15,gzip(gfe)".

(** The loop of [extractCaptionUrl]: the first en/asr track with a URL. *)
Fixpoint find_en_asr (tracks : list CaptionTrack) : option string :=
  match tracks with
  | [] => None
  | track :: rest =>
      if (LanguageCode track =? "en")%string && (Kind track =? "asr")%string then
        if negb (BaseURL track =? "")%string then Some (BaseURL track +++ "&fmt=json3")
        else find_en_asr rest
      else find_en_asr rest
  end.

Definition extractCaptionUrl (resp : Response) : result string :=
  if negb (readable (RespBody resp)) then
    Err (Wrapf "failed to read response: " (LibError ReadFailed))
  else
    match player_json (RespBody resp) with
    | None => Err (Wrapf "failed to unmarshal response: " (LibError BadJSON))
    | Some tracks =>
        match find_en_asr tracks with
        | Some url => Ok url
        | None => Err (Errorf "no en/asr subtitle track found")
        end
    end.

Definition requestCaptionUrl (env : Env) (fuel : nat) (videoId : string) (w : World)
  : option (result string * World) :=
  let data := makeRequestData videoId in
  let req := {| Method := "POST"; URL := playerURL;
                Header := [("Content-Type", "application/json"); ("User-Agent", legacyUA)];
                Payload := Some data |} in
  match Legacy.makeRequestWithRetry unrepresentable env fuel req w with
  | None => None
  | Some (_, Some err, w') => Some (Err (Wrapf "failed to get response: " err), w')
  | Some (None, None, w') => None
  | Some (Some resp, None, w') =>
      if negb (StatusCode resp =? 200) then
        Some (Err (Errorf ("request returned status " +++ fmt_d (StatusCode resp))), w')
      else
        match extractCaptionUrl resp with
        | Err err => Some (Err (Wrapf "failed to extract caption url: " err), w')
        | Ok ret => Some (Ok ret, w')
        end
  end.

(** [Download] of caption.go: no check of the identifier. *)
Definition Download (env : Env) (fuel : nat) (videoId : string) (w : World)
  : option (result Caption * World) :=
  match requestCaptionUrl env fuel videoId w with
  | None => None
  | Some (Err err, w1) => Some (Err err, w1)
  | Some (Ok captionUrl, w1) =>
      match Legacy.requestTimedText unrepresentable env fuel captionUrl w1 with
      | None => None
      | Some (Err err, w2) => Some (Err err, w2)
      | Some (Ok caption, w2) => Some (Ok caption, w2)
      end
  end.

End Pipeline.

End LegacyPipeline.

(** ** Vocabulary of the further properties *)

(** The two requests of a download. *)
Definition player_request (videoID userAgent : string) : Request :=
  {| Method := "POST"; URL := playerURL;
     Header := [("Content-Type", "application/json"); ("User-Agent", userAgent)];
     Payload := Some (makeRequestData videoID) |}.

Definition caption_request (baseURL userAgent : string) : Request :=
  {| Method := "GET"; URL := baseURL +++ "&fmt=json3";
     Header := [("User-Agent", userAgent)];
     Payload := None |}.

(** The options a download works with. *)
Definition effective (opts : option Options) : Options :=
  match opts with None => DefaultOptions | Some o => o end.

(** Strings joined with [sep] between them. *)
Fixpoint join (sep : string) (l : list string) : string :=
  match l with
  | [] => EmptyString
  | [x] => x
  | x :: rest => x +++ sep +++ join sep rest
  end.

(** One block of SRT output, one of VTT output. *)
Definition srt_block (unrepresentable : float64 -> Z) (index : Z) (sub : SubtitleText) : string :=
  fmt_d index +++ newline +++
  formatSRTTime unrepresentable (StartTime sub) +++ " --> " +++
  formatSRTTime unrepresentable (EndTime sub) +++ newline +++
  Text sub +++ newline +++ newline.

Definition vtt_block (unrepresentable : float64 -> Z) (sub : SubtitleText) : string :=
  formatVTTTime unrepresentable (StartTime sub) +++ " --> " +++
  formatVTTTime unrepresentable (EndTime sub) +++ newline +++
  Text sub +++ newline +++ newline.

(** The blocks of a list of spans that starts at position [i] of the
    output: the block at position [i] carries the number [i + 1], a Go
    [int]. *)
Fixpoint srt_blocks (unrepresentable : float64 -> Z) (i : Z) (subs : list SubtitleText)
  : string :=
  match subs with
  | [] => EmptyString
  | sub :: rest =>
      srt_block unrepresentable (int_add i 1) sub +++ srt_blocks unrepresentable (i + 1) rest
  end.

Fixpoint vtt_blocks (unrepresentable : float64 -> Z) (subs : list SubtitleText) : string :=
  match subs with
  | [] => EmptyString
  | sub :: rest => vtt_block unrepresentable sub +++ vtt_blocks unrepresentable rest
  end.

(** A server for the scenarios of the further properties: it answers every
    POST with the player reply [tracks] and every GET with [caption], both
    with status 200, at once. *)
Definition player_body (tracks : list CaptionTrack) : Body :=
  {| readable := true; player_json := Some tracks; caption_json := None |}.

Definition caption_body (caption : Caption) : Body :=
  {| readable := true; player_json := None; caption_json := Some caption |}.

Definition ok_response (body : Body) : Response :=
  {| StatusCode := 200; Status := "200 OK"; RespBody := body |}.

Definition good_server (tracks : list CaptionTrack) (caption : Caption) : Env :=
  {| serve := fun _ req =>
                if (Method req =? "POST")%string
                then DoResponse (ok_response (player_body tracks))
                else DoResponse (ok_response (caption_body caption));
     latency := fun _ => 0;
     random := fun _ => f64_0_5;
     valid_url := fun _ => true |}.

Definition demo_tracks : list CaptionTrack :=
  [track "https://example.invalid/tt?v=1&lang=es" "es" "asr";
   track "https://example.invalid/tt?v=1&lang=en" "en" "asr"].

Definition demo_caption : Caption := {| Events := [hello_world; newline_only] |}.

(** The response behind [answer], and the world after [k] requests
    [get_request] sent from [start_world] by a call that ended at time
    [t] after [d] random draws. *)
Definition answered (code : Z) : Response :=
  {| StatusCode := code; Status := fmt_d code; RespBody := no_body |}.

Definition world_after (t : Z) (k d : nat) : World :=
  {| now := t; sent := repeat get_request k; draws := d |}.

(** The identifier and the world of the download scenario: one POST and
    one GET sent, no retry. *)
Definition demo_id : string := "vStJoetOxJg".

Definition demo_world : World :=
  {| now := 0;
     sent := [player_request demo_id defaultUA;
              caption_request "https://example.invalid/tt?v=1&lang=en" defaultUA];
     draws := 0 |}.

(** Where a failed download comes from.  [metadata_failure] lists the
    failures of the first round trip, which starts in [w] and ends in
    [w']: the transport gave up with [cause], which comes back wrapped;
    or the server's answer to the last player request is a 200, and
    either the track list could not be taken from it, or no track of the
    list can be used: the one case of a bare [ErrNoCaptionsFound]. *)
Definition metadata_failure (unrepresentable : float64 -> Z) (env : Env) (fuel : nat)
           (videoID : string) (o : Options) (w : World) (e : error) (w' : World) : Prop :=
  let req := player_request videoID (UserAgent o) in
  (exists resp cause,
      makeRequestWithRetry unrepresentable env fuel req (MaxRetries o) w
      = Some (resp, Some cause, w')
      /\ e = Wrapf "failed to get response: " cause)
  \/ (exists (n : nat) (rsp : Response),
         sent w' = sent w ++ repeat req (S n)
         /\ serve env (List.length (sent w) + n) req = DoResponse rsp
         /\ StatusCode rsp = 200
         /\ ((exists cause,
                 extractCaptionTracks rsp = Err cause
                 /\ e = Wrapf "failed to extract caption tracks: " cause)
             \/ (exists tracks,
                    player_json (RespBody rsp) = Some tracks
                    /\ tracks <> []
                    /\ findCaptionTrack tracks o = Err ErrNoCaptionsFound
                    /\ e = ErrNoCaptionsFound))).

(** [payload_failure] lists the failures of the second round trip, for
    the track [t], from [w1] to [w']: the URL does not parse and nothing
    is sent; or the transport gave up with [cause], which comes back
    wrapped; or the server's answer to the last GET is a 200 whose body
    cannot be read or decoded. *)
Definition payload_failure (unrepresentable : float64 -> Z) (env : Env) (fuel : nat)
           (t : CaptionTrack) (o : Options) (w1 : World) (e : error) (w' : World) : Prop :=
  let req := caption_request (BaseURL t) (UserAgent o) in
  (valid_url env (BaseURL t +++ "&fmt=json3") = false
   /\ w' = w1
   /\ e = Wrapf "failed to create request: " (LibError BadURL))
  \/ (valid_url env (BaseURL t +++ "&fmt=json3") = true
      /\ exists resp cause,
          makeRequestWithRetry unrepresentable env fuel req (MaxRetries o) w1
          = Some (resp, Some cause, w')
          /\ e = Wrapf "failed to get response: " cause)
  \/ (valid_url env (BaseURL t +++ "&fmt=json3") = true
      /\ exists (m : nat) (rsp : Response),
          sent w' = sent w1 ++ repeat req (S m)
          /\ serve env (List.length (sent w1) + m) req = DoResponse rsp
          /\ StatusCode rsp = 200
          /\ ((readable (RespBody rsp) = false
               /\ e = Wrapf "failed to read subtitle response: " (LibError ReadFailed))
              \/ (readable (RespBody rsp) = true
                  /\ caption_json (RespBody rsp) = None
                  /\ e = Wrapf "failed to unmarshal subtitle response: " (LibError BadJSON)))).

(** A failed download: the identifier is refused and nothing is sent; or
    it is accepted, the player request is the first thing sent, and
    either the first round trip fails, or it gives a track and the second
    fails. *)
Definition download_failure (unrepresentable : float64 -> Z) (env : Env) (fuel : nat)
           (videoID : string) (opts : option Options) (w : World) (e : error) (w' : World)
  : Prop :=
  let o := effective opts in
  (validateVideoID videoID = Some ErrInvalidVideoID /\ e = ErrInvalidVideoID /\ w' = w)
  \/ (validateVideoID videoID = None
      /\ (exists rest, sent w' = sent w ++ player_request videoID (UserAgent o) :: rest)
      /\ (metadata_failure unrepresentable env fuel videoID o w e w'
          \/ exists (t : CaptionTrack) (w1 : World),
              requestCaptionTrack unrepresentable env fuel videoID o w = Some (Ok t, w1)
              /\ payload_failure unrepresentable env fuel t o w1 e w')).

(** The texts of [GetPlainText] before the trimming: each followed by a
    space. *)
Fixpoint spaced (texts : list string) : string :=
  match texts with
  | [] => EmptyString
  | t :: rest => t +++ " " +++ spaced rest
  end.

Definition SP : ascii := ascii_of_N 32.

(** A text as the extractor leaves it: not empty, and its own trimming. *)
Definition trimmed_text (t : string) : Prop := t <> "" /\ TrimSpace t = t.

(** The GET of caption.go: no header. *)
Definition legacy_caption_request (captionUrl : string) : Request :=
  {| Method := "GET"; URL := captionUrl; Header := []; Payload := None |}.

(** A second sorter, to compare with the first: straight insertion
    started from the other end of the slice. *)
Definition insertion_sort_rev {A : Type} (less : A -> A -> bool) (l : list A) : list A :=
  insertion_sort less (rev l).

(** Two spans that start together, and the caption that holds their
    events. *)
Definition tie_first : CaptionEvent :=
  {| TStartMs := 1000; Segments := [segment "first" 100] |}.

Definition tie_second : CaptionEvent :=
  {| TStartMs := 1000; Segments := [segment "second" 200] |}.

Definition tied_caption : Caption := {| Events := [tie_first; tie_second] |}.

(** A caption whose two spans start one second apart, the later first. *)
Definition late_event : CaptionEvent :=
  {| TStartMs := 2000; Segments := [segment "later" 100] |}.

Definition untied_caption : Caption := {| Events := [late_event; tie_first] |}.

(* ================================================================== *)
(** * Part II: properties *)
(* ================================================================== *)

(** ** Strings *)

Lemma append_nil_r (s : string) : s +++ "" = s.
Proof. induction s as [|c s IH]; simpl; [reflexivity | now rewrite IH]. Qed.

Lemma append_assoc (a b c : string) : (a +++ b) +++ c = a +++ (b +++ c).
Proof. induction a as [|x a IH]; simpl; [reflexivity | now rewrite IH]. Qed.

Lemma replace_byte_append (old new : ascii) (a b : string) :
  replace_byte old new (a +++ b) = replace_byte old new a +++ replace_byte old new b.
Proof. induction a as [|x a IH]; simpl; [reflexivity | now rewrite IH]. Qed.

Lemma count_byte_append (c : ascii) (a b : string) :
  count_byte c (a +++ b) = (count_byte c a + count_byte c b)%nat.
Proof. induction a as [|x a IH]; simpl; [reflexivity | rewrite IH; lia]. Qed.

Lemma replace_byte_absent (old new : ascii) (s : string) :
  count_byte old s = O -> replace_byte old new s = s.
Proof.
  induction s as [|c s IH]; simpl; [reflexivity | ].
  destruct (Ascii.eqb c old); [discriminate | ].
  intros H. now rewrite IH.
Qed.

(** ** Decimal output holds no comma *)

Lemma string_of_uint_no_comma (d : Decimal.uint) :
  count_byte comma (NilEmpty.string_of_uint d) = O.
Proof. induction d; simpl; auto. Qed.

Lemma digits_no_comma (n : Z) : count_byte comma (digits n) = O.
Proof. apply string_of_uint_no_comma. Qed.

Lemma zeros_no_comma (k : nat) : count_byte comma (zeros k) = O.
Proof. induction k; simpl; auto. Qed.

Lemma fmt_0d_no_comma (w : nat) (n : Z) : count_byte comma (fmt_0d w n) = O.
Proof.
  unfold fmt_0d.
  rewrite !count_byte_append, zeros_no_comma, digits_no_comma.
  destruct (n <? 0); reflexivity.
Qed.

(** ** Time codes *)

Lemma f64_constants :
  f64_1_0 = f64_of_int 1
  /\ f64_1_5 = f64_div (f64_of_int 3) (f64_of_int 2)
  /\ f64_0_5 = f64_div (f64_of_int 1) (f64_of_int 2)
  /\ f64_zero = f64_of_int 0
  /\ f64_add f64_0_5 f64_1_0 = f64_1_5.
Proof. repeat split. Qed.

Lemma f64_3661_234_rounds_the_literal :
  f64_3661_234 = f64_div (f64_of_int 3661234) (f64_of_int 1000)
  /\ canonical_mantissa f64_prec f64_emax 8051138710017671 (-41) = true
  /\ 2 * Z.abs (8051138710017671 * 1000 - 3661234 * 2 ^ 41) <= 1000.
Proof. repeat split; vm_compute; congruence. Qed.

(** C8. The SRT and VTT time formatters at 0.0 and at 3661.234, whatever
    the platform does with floats that do not fit an integer. *)
Theorem format_time_examples (unrepresentable : float64 -> Z) :
  formatSRTTime unrepresentable f64_zero = "00:00:00,000"
  /\ formatVTTTime unrepresentable f64_zero = "00:00:00.000"
  /\ formatSRTTime unrepresentable f64_3661_234 = "01:01:01,234"
  /\ formatVTTTime unrepresentable f64_3661_234 = "01:01:01.234".
Proof. repeat split; vm_compute; reflexivity. Qed.

(** C9. For every float64 number of seconds (non-negative or not) the two
    formatters print the same hours, minutes, seconds and milliseconds;
    the SRT output holds exactly one comma, and the VTT output is the SRT
    output with that comma replaced by a period. *)
Theorem format_vtt_is_srt_with_period (unrepresentable : float64 -> Z) (seconds : float64) :
  (exists hours minutes secs millis : Z,
      formatSRTTime unrepresentable seconds =
        fmt_0d 2 hours +++ ":" +++ fmt_0d 2 minutes +++ ":" +++ fmt_0d 2 secs +++ "," +++ fmt_0d 3 millis
      /\ formatVTTTime unrepresentable seconds =
        fmt_0d 2 hours +++ ":" +++ fmt_0d 2 minutes +++ ":" +++ fmt_0d 2 secs +++ "." +++ fmt_0d 3 millis)
  /\ count_byte comma (formatSRTTime unrepresentable seconds) = 1%nat
  /\ formatVTTTime unrepresentable seconds =
       replace_byte comma period (formatSRTTime unrepresentable seconds).
Proof.
  unfold formatSRTTime, formatVTTTime.
  set (t := f64_to_int unrepresentable (f64_mul seconds (f64_of_int Second))).
  set (hours := f64_to_int unrepresentable (Duration_Hours t)).
  set (minutes := int_rem (f64_to_int unrepresentable (Duration_Minutes t)) 60).
  set (secs := int_rem (f64_to_int unrepresentable (Duration_Seconds t)) 60).
  set (millis := int_rem (int_div (Duration_Nanoseconds t) 1000000) 1000).
  split; [ | split ].
  - exists hours, minutes, secs, millis. split; reflexivity.
  - rewrite !count_byte_append, !fmt_0d_no_comma. reflexivity.
  - rewrite !replace_byte_append.
    rewrite !(replace_byte_absent comma period (fmt_0d _ _)) by apply fmt_0d_no_comma.
    reflexivity.
Qed.

(** ** float64: rounding never makes a NaN out of a number *)

Lemma shr_1_nonneg (mrs : shr_record) : 0 <= shr_m mrs -> 0 <= shr_m (shr_1 mrs).
Proof.
  destruct mrs as [m r s]; simpl.
  destruct m as [|p|p]; [ | destruct p | ]; simpl; lia.
Qed.

Lemma iter_pos_shr_1_nonneg (p : positive) (mrs : shr_record) :
  0 <= shr_m mrs -> 0 <= shr_m (iter_pos shr_1 p mrs).
Proof.
  revert mrs. induction p as [p IH|p IH|]; intros mrs H; simpl.
  - apply IH, IH, shr_1_nonneg, H.
  - apply IH, IH, H.
  - apply shr_1_nonneg, H.
Qed.

Lemma shr_fexp_nonneg (m e : Z) (l : location) :
  0 <= m -> 0 <= shr_m (fst (shr_fexp f64_prec f64_emax m e l)).
Proof.
  intros H. unfold shr_fexp, shr.
  assert (H0 : 0 <= shr_m (shr_record_of_loc m l))
    by (destruct l as [|[| |]]; exact H).
  destruct (fexp f64_prec f64_emax (Zdigits2 m + e) - e); simpl; auto.
  apply iter_pos_shr_1_nonneg, H0.
Qed.

Lemma round_nearest_even_nonneg (m : Z) (l : location) :
  0 <= m -> 0 <= round_nearest_even m l.
Proof.
  intros H. destruct l as [|[| |]]; simpl; try lia.
  destruct (Z.even m); lia.
Qed.

Lemma binary_round_aux_not_nan (s : bool) (m e : Z) (l : location) :
  0 <= m -> is_nan (binary_round_aux f64_prec f64_emax s m e l) = false.
Proof.
  intros H. unfold binary_round_aux.
  pose proof (shr_fexp_nonneg m e l H) as H1.
  destruct (shr_fexp f64_prec f64_emax m e l) as [mrs' e']. simpl in H1.
  pose proof (shr_fexp_nonneg _ e' loc_Exact
                (round_nearest_even_nonneg _ (loc_of_shr_record mrs') H1)) as H2.
  destruct (shr_fexp f64_prec f64_emax
              (round_nearest_even (shr_m mrs') (loc_of_shr_record mrs')) e' loc_Exact)
    as [mrs'' e''].
  simpl in H2.
  destruct (shr_m mrs'') as [|p|p]; [reflexivity | | lia].
  destruct (e'' <=? f64_emax - f64_prec); reflexivity.
Qed.

Lemma f64_of_int_not_nan (n : Z) : is_nan (f64_of_int n) = false.
Proof.
  unfold f64_of_int, binary_normalize, binary_round.
  destruct n as [|p|p]; [reflexivity | | ];
    destruct (shl_align p 0 _) as [mz ez]; apply binary_round_aux_not_nan; lia.
Qed.

Lemma div_core_nonneg (mx my : positive) (ex ey : Z) :
  0 <= fst (fst (SFdiv_core_binary f64_prec f64_emax (Zpos mx) ex (Zpos my) ey)).
Proof.
  unfold SFdiv_core_binary.
  set (s := _ - _ - Z.min _ _).
  set (m' := match s with Z0 => Zpos mx | Zpos _ => Z.shiftl (Zpos mx) s | Zneg _ => 0 end).
  assert (Hm : 0 <= m').
  { subst m'. destruct s; try lia. apply Z.shiftl_nonneg. lia. }
  pose proof (Z.div_pos m' (Zpos my) Hm ltac:(lia)) as Hq.
  unfold Z.div in Hq.
  destruct (Z.div_eucl m' (Zpos my)) as [q r]. exact Hq.
Qed.

(** A quotient by a finite non-zero float is a NaN only if the dividend is. *)
Lemma f64_div_not_nan (x y : float64) :
  is_nan x = false -> (exists s m e, y = S754_finite s m e) ->
  is_nan (f64_div x y) = false.
Proof.
  intros Hx (sy & my & ey & ->).
  destruct x as [sx|sx| |sx mx ex]; try reflexivity; try discriminate.
  unfold f64_div, SFdiv.
  pose proof (div_core_nonneg mx my ex ey) as Hq.
  destruct (SFdiv_core_binary f64_prec f64_emax (Zpos mx) ex (Zpos my) ey) as [[mz ez] lz].
  apply binary_round_aux_not_nan. exact Hq.
Qed.

Lemma ms_to_sec_not_nan (ms : Z) : is_nan (ms_to_sec ms) = false.
Proof.
  unfold ms_to_sec. apply f64_div_not_nan.
  - apply f64_of_int_not_nan.
  - eexists _, _, _. vm_compute. reflexivity.
Qed.

(** ** float64: the order *)

Ltac split_compare :=
  repeat match goal with
    | |- context [ Z.compare ?a ?b ] => destruct (Z.compare_spec a b)
    | |- context [ Pos.compare_cont Eq ?a ?b ] =>
        change (Pos.compare_cont Eq a b) with (Pos.compare a b);
        destruct (Pos.compare_spec a b)
    end.

Lemma f64_lt_key (x y : float64) :
  is_nan x = false -> is_nan y = false ->
  (f64_lt x y = true <-> lex_lt (f64_key x) (f64_key y)).
Proof.
  intros Hx Hy. unfold f64_lt, SFltb, SFcompare, lex_lt, f64_key.
  destruct x as [sx|sx| |sx mx ex]; try discriminate;
    destruct y as [sy|sy| |sy my ey]; try discriminate;
    try destruct sx; try destruct sy; split_compare; simpl;
    split; intros K; try discriminate; try reflexivity; try lia.
Qed.

Lemma f64_le_key (x y : float64) :
  is_nan x = false -> is_nan y = false ->
  (f64_le x y = true <-> ~ lex_lt (f64_key y) (f64_key x)).
Proof.
  intros Hx Hy. unfold f64_le, SFleb, SFcompare, lex_lt, f64_key.
  destruct x as [sx|sx| |sx mx ex]; try discriminate;
    destruct y as [sy|sy| |sy my ey]; try discriminate;
    try destruct sx; try destruct sy; split_compare; simpl;
    split; intros K; try discriminate; try reflexivity; try lia.
Qed.

Lemma f64_lt_nan_l (x y : float64) : is_nan x = true -> f64_lt x y = false.
Proof. destruct x; try discriminate. reflexivity. Qed.

Lemma f64_lt_nan_r (x y : float64) : is_nan y = true -> f64_lt x y = false.
Proof. destruct y; try discriminate. destruct x; reflexivity. Qed.

Lemma f64_lt_not_nan (x y : float64) :
  f64_lt x y = true -> is_nan x = false /\ is_nan y = false.
Proof.
  intros H. split.
  - destruct (is_nan x) eqn:E; [ | reflexivity].
    rewrite (f64_lt_nan_l x y E) in H. discriminate.
  - destruct (is_nan y) eqn:E; [ | reflexivity].
    rewrite (f64_lt_nan_r x y E) in H. discriminate.
Qed.

Lemma f64_le_not_nan (x y : float64) :
  f64_le x y = true -> is_nan x = false /\ is_nan y = false.
Proof.
  destruct x, y; simpl; intros H; try discriminate; split; reflexivity.
Qed.

Lemma f64_lt_irrefl (x : float64) : f64_lt x x = false.
Proof.
  destruct (is_nan x) eqn:E; [now apply f64_lt_nan_l | ].
  destruct (f64_lt x x) eqn:H; [ | reflexivity].
  apply (f64_lt_key x x E E) in H.
  unfold lex_lt in H. destruct (f64_key x) as [[a b] c]. lia.
Qed.

Lemma f64_lt_trans (x y z : float64) :
  f64_lt x y = true -> f64_lt y z = true -> f64_lt x z = true.
Proof.
  intros H1 H2.
  destruct (f64_lt_not_nan _ _ H1) as [Hx Hy].
  destruct (f64_lt_not_nan _ _ H2) as [_ Hz].
  apply (f64_lt_key x y Hx Hy) in H1. apply (f64_lt_key y z Hy Hz) in H2.
  apply (f64_lt_key x z Hx Hz).
  unfold lex_lt in *.
  destruct (f64_key x) as [[a1 a2] a3], (f64_key y) as [[b1 b2] b3],
           (f64_key z) as [[c1 c2] c3]. lia.
Qed.

Lemma f64_lt_negtrans (x y z : float64) :
  is_nan x = false -> is_nan y = false -> is_nan z = false ->
  f64_lt x y = false -> f64_lt y z = false -> f64_lt x z = false.
Proof.
  intros Hx Hy Hz H1 H2.
  destruct (f64_lt x z) eqn:H3; [ | reflexivity].
  apply (f64_lt_key x z Hx Hz) in H3.
  assert (N1 : ~ lex_lt (f64_key x) (f64_key y))
    by (intros K; apply (f64_lt_key x y Hx Hy) in K; congruence).
  assert (N2 : ~ lex_lt (f64_key y) (f64_key z))
    by (intros K; apply (f64_lt_key y z Hy Hz) in K; congruence).
  unfold lex_lt in *.
  destruct (f64_key x) as [[a1 a2] a3], (f64_key y) as [[b1 b2] b3],
           (f64_key z) as [[c1 c2] c3]. lia.
Qed.

Lemma f64_le_of_not_lt (x y : float64) :
  is_nan x = false -> is_nan y = false -> f64_lt y x = false -> f64_le x y = true.
Proof.
  intros Hx Hy H. apply (f64_le_key x y Hx Hy).
  intros K. apply (f64_lt_key y x Hy Hx) in K. congruence.
Qed.

Lemma f64_le_refl (x : float64) : is_nan x = false -> f64_le x x = true.
Proof. intros Hx. apply f64_le_of_not_lt; auto. apply f64_lt_irrefl. Qed.

Lemma f64_lt_le (x y : float64) : f64_lt x y = true -> f64_le x y = true.
Proof.
  unfold f64_lt, f64_le, SFltb, SFleb.
  destruct (SFcompare x y) as [[| |]|]; intros H; try discriminate; reflexivity.
Qed.

Lemma f64_le_trans (x y z : float64) :
  f64_le x y = true -> f64_le y z = true -> f64_le x z = true.
Proof.
  intros H1 H2.
  destruct (f64_le_not_nan _ _ H1) as [Hx Hy].
  destruct (f64_le_not_nan _ _ H2) as [_ Hz].
  apply (f64_le_key x y Hx Hy) in H1. apply (f64_le_key y z Hy Hz) in H2.
  apply (f64_le_key x z Hx Hz).
  unfold lex_lt in *.
  destruct (f64_key x) as [[a1 a2] a3], (f64_key y) as [[b1 b2] b3],
           (f64_key z) as [[c1 c2] c3]. lia.
Qed.

(** ** strings.TrimSpace *)

Section TrimFacts.

Variable sp1 : ascii -> bool.
Variable sp2 : ascii -> ascii -> bool.
Variable sp3 : ascii -> ascii -> ascii -> bool.

Let starts := starts_space sp1 sp2 sp3.
Let trim := trim_head sp1 sp2 sp3.

Lemma trim_head_stable (l : list ascii) : starts l = false -> trim l = l.
Proof.
  unfold starts, trim.
  destruct l as [|a [|b [|c r3]]]; simpl; try reflexivity.
  - rewrite orb_false_r. now intros ->.
  - rewrite orb_false_r. intros H. apply orb_false_iff in H as [-> ->]. reflexivity.
  - intros H. apply orb_false_iff in H as [-> H].
    apply orb_false_iff in H as [-> ->]. reflexivity.
Qed.

Lemma trim_head_spec (n : nat) :
  forall l, (List.length l <= n)%nat ->
            starts (trim l) = false /\ exists p, l = p ++ trim l.
Proof.
  unfold starts, trim.
  induction n as [|n IH]; intros l Hn.
  - destruct l; [ | simpl in Hn; lia]. split; [reflexivity | now exists []].
  - destruct l as [|a r1]; [split; [reflexivity | now exists []] | ].
    simpl in Hn. simpl.
    destruct (sp1 a) eqn:E1.
    { destruct (IH r1 ltac:(lia)) as [H (p & Hp)].
      split; [exact H | ]. exists (a :: p). simpl. now rewrite <- Hp. }
    destruct r1 as [|b r2].
    { split; [simpl; now rewrite E1 | now exists []]. }
    simpl in Hn.
    destruct (sp2 a b) eqn:E2.
    { destruct (IH r2 ltac:(lia)) as [H (p & Hp)].
      split; [exact H | ]. exists (a :: b :: p). simpl. now rewrite <- Hp. }
    destruct r2 as [|c r3].
    { split; [simpl; now rewrite E1, E2 | now exists []]. }
    simpl in Hn.
    destruct (sp3 a b c) eqn:E3.
    { destruct (IH r3 ltac:(lia)) as [H (p & Hp)].
      split; [exact H | ]. exists (a :: b :: c :: p). simpl. now rewrite <- Hp. }
    split; [simpl; now rewrite E1, E2, E3 | now exists []].
Qed.

Lemma trim_head_free (l : list ascii) : starts (trim l) = false.
Proof. apply (trim_head_spec (List.length l) l). lia. Qed.

Lemma trim_head_suffix (l : list ascii) : exists p, l = p ++ trim l.
Proof. apply (trim_head_spec (List.length l) l). lia. Qed.

Lemma trim_head_idem (l : list ascii) : trim (trim l) = trim l.
Proof. apply trim_head_stable, trim_head_free. Qed.

Lemma starts_space_app (p t : list ascii) :
  starts p = true -> starts (p ++ t) = true.
Proof.
  unfold starts.
  destruct p as [|a [|b [|c r3]]]; simpl; try discriminate.
  - rewrite orb_false_r. now intros ->.
  - rewrite orb_false_r. intros H. apply orb_true_iff in H as [-> | ->];
      [reflexivity | ]. rewrite orb_true_l. apply orb_true_r.
  - auto.
Qed.

End TrimFacts.

Lemma trimRight_prefix (l : list ascii) : exists t, l = trimRight l ++ t.
Proof.
  unfold trimRight.
  destruct (trim_head_suffix space1 (fun a b => space2 b a) (fun a b c => space3 c b a) (rev l))
    as (p & Hp).
  exists (rev p).
  rewrite <- rev_app_distr, <- Hp. symmetry. apply rev_involutive.
Qed.

Lemma trimRight_idem (l : list ascii) : trimRight (trimRight l) = trimRight l.
Proof. unfold trimRight. now rewrite rev_involutive, trim_head_idem. Qed.

Lemma trimRight_keeps_head (l : list ascii) :
  starts_space space1 space2 space3 l = false ->
  starts_space space1 space2 space3 (trimRight l) = false.
Proof.
  intros H. destruct (trimRight_prefix l) as (t & Ht).
  destruct (starts_space space1 space2 space3 (trimRight l)) eqn:E; [ | reflexivity].
  apply (starts_space_app _ _ _ _ t) in E. rewrite <- Ht in E. congruence.
Qed.

Lemma TrimSpace_idem (s : string) : TrimSpace (TrimSpace s) = TrimSpace s.
Proof.
  unfold TrimSpace. rewrite list_ascii_of_string_of_list_ascii.
  f_equal. unfold trimLeft at 1.
  rewrite trim_head_stable.
  - apply trimRight_idem.
  - apply trimRight_keeps_head. apply trim_head_free.
Qed.

Lemma TrimSpace_empty : TrimSpace "" = "".
Proof. reflexivity. Qed.

(** ** sort.Slice: straight insertion meets the contract *)

Section InsertionSort.

Context {A : Type}.
Variable less : A -> A -> bool.

Lemma insert_sorted_perm (x : A) (l : list A) :
  Permutation (insert_sorted less x l) (x :: l).
Proof.
  induction l as [|y l IH]; simpl; [reflexivity | ].
  destruct (less x y); [reflexivity | ].
  rewrite IH. apply perm_swap.
Qed.

Lemma insertion_sort_perm (l : list A) : Permutation (insertion_sort less l) l.
Proof.
  induction l as [|x l IH]; simpl; [reflexivity | ].
  rewrite insert_sorted_perm. now constructor.
Qed.

Lemma insert_sorted_sorted (L : list A) (x : A) (l : list A) :
  strict_weak_on less L -> incl (x :: l) L ->
  sorted_by less l -> sorted_by less (insert_sorted less x l).
Proof.
  intros (Hirr & Htr & _) Hin. unfold sorted_by.
  induction l as [|y l IH]; intros Hs; simpl.
  - repeat constructor.
  - apply StronglySorted_inv in Hs as [Hs Hy].
    assert (Ix : In x L) by (apply Hin; now left).
    assert (Iy : In y L) by (apply Hin; right; now left).
    destruct (less x y) eqn:E.
    + constructor; [now constructor | ].
      constructor.
      * destruct (less y x) eqn:E'; [ | reflexivity].
        rewrite <- (Hirr x Ix). symmetry. now apply (Htr x y x).
      * rewrite Forall_forall in Hy |- *. intros z Hz.
        destruct (less z x) eqn:E'; [ | reflexivity].
        rewrite <- (Hy z Hz). symmetry. apply (Htr z x y); auto.
        apply Hin. right. now right.
    + constructor.
      * apply IH; [ | exact Hs].
        intros z [<- | Hz]; apply Hin; [now left | right; now right].
      * apply (Permutation_Forall (Permutation_sym (insert_sorted_perm x l))).
        now constructor.
Qed.

Lemma insertion_sort_sorted (l : list A) :
  strict_weak_on less l -> sorted_by less (insertion_sort less l).
Proof.
  intros H.
  assert (G : forall l', incl l' l -> sorted_by less (insertion_sort less l')).
  { induction l' as [|x l' IH]; intros Hin; simpl; [constructor | ].
    apply (insert_sorted_sorted l); auto.
    - intros z [<- | Hz]; [apply Hin; now left | ].
      apply Hin. right.
      apply (Permutation_in z (insertion_sort_perm l') Hz).
    - apply IH. intros z Hz. apply Hin. now right. }
  apply G, incl_refl.
Qed.

End InsertionSort.

#[export] Instance insertion_sorter : SliceSorter := {|
  sort_Slice := @insertion_sort;
  sort_Slice_perm := @insertion_sort_perm;
  sort_Slice_sorted := @insertion_sort_sorted
|}.

(** ** Track selection *)

Lemma find_language_kind_first (tracks : list CaptionTrack) (opts : Options) (t : CaptionTrack) :
  first_match (tier1 (Language opts) (Options_Kind opts)) tracks t ->
  find_language_kind tracks opts = Some t.
Proof.
  intros (l1 & l2 & -> & Ht & Hl1).
  induction Hl1 as [|x l1 Hx _ IH]; simpl.
  - unfold tier1, has_url in Ht.
    apply andb_true_iff in Ht as [Ht ->]. now rewrite Ht.
  - unfold tier1, has_url in Hx.
    destruct ((LanguageCode x =? Language opts)%string && (Kind x =? Options_Kind opts)%string);
      [ | exact IH].
    simpl in Hx. now rewrite Hx.
Qed.

Lemma find_language_first (tracks : list CaptionTrack) (opts : Options) (t : CaptionTrack) :
  first_match (tier2 (Language opts)) tracks t ->
  find_language tracks opts = Some t.
Proof.
  intros (l1 & l2 & -> & Ht & Hl1).
  induction Hl1 as [|x l1 Hx _ IH]; simpl.
  - unfold tier2, has_url in Ht.
    apply andb_true_iff in Ht as [-> ->]. reflexivity.
  - unfold tier2, has_url in Hx.
    destruct (LanguageCode x =? Language opts)%string; [ | exact IH].
    simpl in Hx. now rewrite Hx.
Qed.

Lemma find_language_kind_none (tracks : list CaptionTrack) (opts : Options) :
  Forall (fun t => tier1 (Language opts) (Options_Kind opts) t = false) tracks ->
  find_language_kind tracks opts = None.
Proof.
  induction 1 as [|x l Hx _ IH]; simpl; [reflexivity | ].
  unfold tier1, has_url in Hx.
  destruct ((LanguageCode x =? Language opts)%string && (Kind x =? Options_Kind opts)%string);
    [ | exact IH].
  simpl in Hx. now rewrite Hx.
Qed.

Lemma find_language_none (tracks : list CaptionTrack) (opts : Options) :
  Forall (fun t => tier2 (Language opts) t = false) tracks ->
  find_language tracks opts = None.
Proof.
  induction 1 as [|x l Hx _ IH]; simpl; [reflexivity | ].
  unfold tier2, has_url in Hx.
  destruct (LanguageCode x =? Language opts)%string; [ | exact IH].
  simpl in Hx. now rewrite Hx.
Qed.

(** C2. The selector returns the first track of the requested language and
    kind that has a URL when there is one, and otherwise the first track of
    the requested language that has a URL when there is one.  So, with
    URLs on all tracks, the request (en, asr) gets the third of
    [{es,asr}, {en,manual}, {en,asr}] and the only track of [{en,manual}]. *)
Theorem findCaptionTrack_language_tiers (tracks : list CaptionTrack) (opts : Options) :
  (forall t, first_match (tier1 (Language opts) (Options_Kind opts)) tracks t ->
             findCaptionTrack tracks opts = Ok t)
  /\ (Forall (fun t => tier1 (Language opts) (Options_Kind opts) t = false) tracks ->
      forall t, first_match (tier2 (Language opts)) tracks t ->
                findCaptionTrack tracks opts = Ok t)
  /\ (forall u1 u2 u3 : string,
         u1 <> "" -> u2 <> "" -> u3 <> "" ->
         findCaptionTrack [track u1 "es" "asr"; track u2 "en" "manual"; track u3 "en" "asr"]
                          (request "en" "asr") = Ok (track u3 "en" "asr"))
  /\ (forall u1 : string,
         u1 <> "" ->
         findCaptionTrack [track u1 "en" "manual"] (request "en" "asr")
         = Ok (track u1 "en" "manual")).
Proof.
  repeat split.
  - intros t H. unfold findCaptionTrack.
    now rewrite (find_language_kind_first _ _ _ H).
  - intros H1 t H2. unfold findCaptionTrack.
    now rewrite (find_language_kind_none _ _ H1), (find_language_first _ _ _ H2).
  - intros u1 u2 [|c u3] _ _ H3; [now contradiction H3 | reflexivity].
  - intros [|c u1] H1; [now contradiction H1 | reflexivity].
Qed.

(** C1, refuted as written: the first track has no URL, the second has
    one and is of another language; the selector fails. *)
Lemma fallback_ignores_later_tracks :
  ~ fallback_scans_the_list [track "" "es" "asr"; track "u2" "fr" "asr"] (request "en" "asr").
Proof.
  intros H.
  destruct H as [H _]; [repeat constructor | repeat constructor | ].
  specialize (H (track "u2" "fr" "asr")).
  assert (F : first_match has_url [track "" "es" "asr"; track "u2" "fr" "asr"]
                          (track "u2" "fr" "asr")).
  { exists [track "" "es" "asr"], []. repeat split. repeat constructor. }
  specialize (H F). discriminate H.
Qed.

(** C1, amended. With no track in the first two tiers, the selector looks
    at the head of the list only: it answers with the first track when
    that one has a URL, whatever its language and kind, and with
    [ErrNoCaptionsFound] when the list is empty or its first track has no
    URL. *)
Theorem findCaptionTrack_fallback_head (tracks : list CaptionTrack) (opts : Options) :
  Forall (fun t => tier1 (Language opts) (Options_Kind opts) t = false) tracks ->
  Forall (fun t => tier2 (Language opts) t = false) tracks ->
  findCaptionTrack tracks opts =
    match tracks with
    | track0 :: _ => if has_url track0 then Ok track0 else Err ErrNoCaptionsFound
    | [] => Err ErrNoCaptionsFound
    end.
Proof.
  intros H1 H2. unfold findCaptionTrack.
  rewrite (find_language_kind_none _ _ H1), (find_language_none _ _ H2).
  reflexivity.
Qed.

Lemma findCaptionTrack_fallback_head_witness :
  findCaptionTrack [track "u1" "es" "manual"; track "" "fr" "asr"] (request "en" "asr")
  = Ok (track "u1" "es" "manual").
Proof.
  apply (findCaptionTrack_fallback_head
           [track "u1" "es" "manual"; track "" "fr" "asr"] (request "en" "asr"));
    repeat constructor.
Defined.

(** ** The extractor: the inner loop *)

Lemma segment_loop_text (tStartMs : Z) (segs : list CaptionSegment) (text : string) (e : float64) :
  fst (fold_left (segment_step tStartMs) segs (text, e))
  = text +++ joined (filter (fun seg => negb (UTF8 seg =? newline)%string) segs).
Proof.
  revert text e. induction segs as [|seg segs IH]; intros text e; simpl.
  - unfold joined. simpl. symmetry. apply append_nil_r.
  - destruct (UTF8 seg =? newline)%string; simpl; [apply IH | ].
    destruct (f64_lt e _); rewrite IH; unfold joined; simpl; apply append_assoc.
Qed.

Lemma segment_loop_end (event : CaptionEvent) (segs : list CaptionSegment)
      (text : string) (e : float64) :
  is_nan e = false ->
  f64_greatest (snd (fold_left (segment_step (TStartMs event)) segs (text, e)))
    (e :: map (segment_end event) (filter (fun seg => negb (UTF8 seg =? newline)%string) segs)).
Proof.
  revert text e. induction segs as [|seg segs IH]; intros text e He; simpl.
  - split; [now left | ]. constructor; [now apply f64_le_refl | constructor].
  - destruct (UTF8 seg =? newline)%string; simpl; [now apply IH | ].
    fold (segment_end event seg).
    assert (Hs : is_nan (segment_end event seg) = false) by apply ms_to_sec_not_nan.
    destruct (f64_lt e (segment_end event seg)) eqn:E.
    + destruct (IH (text +++ UTF8 seg) _ Hs) as [Hin Hall].
      apply Forall_cons_iff in Hall as [Hle Hall].
      split.
      * destruct Hin as [<- | Hin]; [right; now left | right; now right].
      * constructor; [ | now constructor].
        apply f64_le_trans with (segment_end event seg); [now apply f64_lt_le | exact Hle].
    + destruct (IH (text +++ UTF8 seg) _ He) as [Hin Hall].
      apply Forall_cons_iff in Hall as [Hle Hall].
      split.
      * destruct Hin as [<- | Hin]; [now left | right; now right].
      * constructor; [exact Hle | constructor; [ | exact Hall]].
        apply f64_le_trans with e; [now apply f64_le_of_not_lt | exact Hle].
Qed.

(** ** The extractor: the outer loop *)

Lemma event_step_spec (result : list SubtitleText) (event : CaptionEvent) :
  event_step result event
  = result ++ (if gives_span event then [built_span event] else []).
Proof.
  unfold event_step, gives_span, built_span, event_text, text_segments.
  destruct (List.length (Segments event) =? 0)%nat; simpl; [now rewrite app_nil_r | ].
  pose proof (segment_loop_text (TStartMs event) (Segments event) EmptyString
                (ms_to_sec (TStartMs event))) as Ht.
  destruct (fold_left _ _ _) as [text endTime]. simpl in Ht. subst text. simpl.
  destruct (TrimSpace _ =? "")%string; simpl; [now rewrite app_nil_r | reflexivity].
Qed.

Lemma event_loop_spec (events : list CaptionEvent) (result : list SubtitleText) :
  fold_left event_step events result
  = result ++ map built_span (filter gives_span events).
Proof.
  revert result. induction events as [|event events IH]; intros result; simpl.
  - now rewrite app_nil_r.
  - rewrite IH, event_step_spec, <- app_assoc.
    destruct (gives_span event); reflexivity.
Qed.

Lemma built_span_of_event (event : CaptionEvent) : span_of_event event (built_span event).
Proof.
  unfold span_of_event, built_span. simpl. repeat split.
  - apply (segment_loop_end event (Segments event) EmptyString), ms_to_sec_not_nan.
  - apply (segment_loop_end event (Segments event) EmptyString), ms_to_sec_not_nan.
Qed.

Lemma built_span_well_formed (event : CaptionEvent) :
  gives_span event = true -> well_formed_span (built_span event).
Proof.
  intros H. unfold gives_span in H. apply andb_true_iff in H as [_ H].
  destruct (built_span_of_event event) as (Hs & Ht & _ & Hall).
  apply Forall_cons_iff in Hall as [Hle _].
  repeat split.
  - rewrite Hs. apply ms_to_sec_not_nan.
  - simpl. intros E. rewrite E in H. discriminate H.
  - simpl. apply TrimSpace_idem.
  - exact Hle.
Qed.

Lemma event_loop_well_formed (events : list CaptionEvent) :
  Forall well_formed_span (fold_left event_step events []).
Proof.
  rewrite event_loop_spec. simpl.
  apply Forall_forall. intros sp Hsp.
  apply in_map_iff in Hsp as (event & <- & Hev).
  apply filter_In in Hev as [_ Hev].
  now apply built_span_well_formed.
Qed.

(** ** sort.Slice on the spans *)

Lemma sort_Slice_nil {sorter : SliceSorter} {A : Type} (less : A -> A -> bool) :
  sort_Slice less [] = [].
Proof. apply Permutation_nil. symmetry. apply sort_Slice_perm. Qed.

Lemma sort_Slice_one {sorter : SliceSorter} {A : Type} (less : A -> A -> bool) (x : A) :
  sort_Slice less [x] = [x].
Proof. apply Permutation_length_1_inv. symmetry. apply sort_Slice_perm. Qed.

Lemma less_StartTime_strict_weak (l : list SubtitleText) :
  Forall well_formed_span l -> strict_weak_on less_StartTime l.
Proof.
  intros H. rewrite Forall_forall in H. unfold less_StartTime.
  repeat split.
  - intros x _. apply f64_lt_irrefl.
  - intros x y z _ _ _. apply f64_lt_trans.
  - intros x y z Hx Hy Hz. apply f64_lt_negtrans; now apply H.
Qed.

Lemma StronglySorted_weaken {A : Type} (P : A -> Prop) (R R' : A -> A -> Prop) (l : list A) :
  (forall a b, P a -> P b -> R a b -> R' a b) ->
  Forall P l -> StronglySorted R l -> StronglySorted R' l.
Proof.
  intros HR HP HS. induction HS as [|a l HS IH Ha]; constructor.
  - apply IH. now apply Forall_inv_tail in HP.
  - apply Forall_cons_iff in HP as [Pa Pl].
    rewrite Forall_forall in *. intros b Hb. apply HR; auto.
Qed.

(** ** The extractor: what it computes *)

(** C3, refuted as written: a segment that starts before its event (a
    negative offset) does not pull the end of the span below its start;
    the span ends at 1.0, not at 0.5, the greatest segment end. *)
Lemma extraction_end_not_below_start :
  ~ @extraction_follows insertion_sorter span_as_specified {| Events := [early_segment] |}.
Proof.
  intros (spans & HF & HE).
  inversion HF as [|ev sp evs sps Hsp Hrest]; subst.
  inversion Hrest; subst.
  vm_compute in HE.
  destruct Hsp as (_ & _ & _ & Hend).
  destruct Hend as [Hin _]; [discriminate | ].
  injection HE as <-.
  vm_compute in Hin. destruct Hin as [Hin | []]. discriminate Hin.
Qed.

(** C3, amended. The extractor turns each event that has a segment and a
    non-empty trimmed text into one span: the start is [tStartMs / 1000],
    the text is the trimmed concatenation, in order, of the segments other
    than the newline marker, and the end is the greatest of the start and
    of [(tStartMs + tOffsetMs) / 1000] (the sum in 64-bit [int]) over
    those segments.  Events without segment or with an empty trimmed text
    give nothing.  The two scenarios follow. *)
Theorem extraction_spans {sorter : SliceSorter} (c : Caption) :
  extraction_follows span_of_event c
  /\ GetSubtitleText {| Events := [hello_world] |}
     = [ {| StartTime := f64_1_0; EndTime := f64_1_5; Text := "Hello world" |} ]
  /\ GetSubtitleText {| Events := [newline_only] |} = [].
Proof.
  split; [ | split ].
  - exists (map built_span (filter gives_span (Events c))). split.
    + induction (filter gives_span (Events c)) as [|ev evs IH]; simpl; constructor;
        [apply built_span_of_event | exact IH].
    + unfold GetSubtitleText. now rewrite event_loop_spec.
  - unfold GetSubtitleText.
    change (fold_left event_step (Events {| Events := [hello_world] |}) [])
      with (event_step [] hello_world).
    replace (event_step [] hello_world)
      with [ {| StartTime := f64_1_0; EndTime := f64_1_5; Text := "Hello world" |} ]
      by (vm_compute; reflexivity).
    apply sort_Slice_one.
  - unfold GetSubtitleText.
    replace (fold_left event_step (Events {| Events := [newline_only] |}) [])
      with (@nil SubtitleText) by (vm_compute; reflexivity).
    apply sort_Slice_nil.
Qed.

(** C4. Whatever the events (negative offsets included), the spans come
    out in non-decreasing order of start time, each with a text that is
    not empty and is its own trimming, and each ending no earlier than it
    starts. *)
Theorem extraction_invariants {sorter : SliceSorter} (c : Caption) :
  StronglySorted (fun a b => f64_le (StartTime a) (StartTime b) = true) (GetSubtitleText c)
  /\ Forall (fun sp => Text sp <> "" /\ TrimSpace (Text sp) = Text sp) (GetSubtitleText c)
  /\ Forall (fun sp => f64_le (StartTime sp) (EndTime sp) = true) (GetSubtitleText c).
Proof.
  unfold GetSubtitleText.
  set (raw := fold_left event_step (Events c) []).
  assert (Hraw : Forall well_formed_span raw) by apply event_loop_well_formed.
  assert (Hout : Forall well_formed_span (sort_Slice less_StartTime raw)).
  { apply (Permutation_Forall (Permutation_sym (sort_Slice_perm _ less_StartTime raw))).
    exact Hraw. }
  split; [ | split ].
  - apply (StronglySorted_weaken well_formed_span
             (fun a b => less_StartTime b a = false)); [ | exact Hout | ].
    + intros a b (Ha & _) (Hb & _) Hab. now apply f64_le_of_not_lt.
    + apply sort_Slice_sorted, less_StartTime_strict_weak, Hraw.
  - apply (Forall_impl _ (P := well_formed_span)); [ | exact Hout].
    intros sp (_ & H1 & H2 & _). now split.
  - apply (Forall_impl _ (P := well_formed_span)); [ | exact Hout].
    intros sp (_ & _ & _ & H). exact H.
Qed.

(** An event gives no span when it has no segment or only newline markers. *)
Lemma newline_events_give_nothing {sorter : SliceSorter} (c : Caption) :
  Forall (fun event => Forall (fun seg => UTF8 seg = newline) (Segments event)) (Events c) ->
  GetSubtitleText c = [].
Proof.
  intros H. unfold GetSubtitleText. rewrite event_loop_spec. simpl.
  replace (filter gives_span (Events c)) with (@nil CaptionEvent); [apply sort_Slice_nil | ].
  symmetry. induction H as [|event events Hev _ IH]; simpl; [reflexivity | ].
  replace (gives_span event) with false; [exact IH | ].
  unfold gives_span, event_text, text_segments.
  replace (filter _ (Segments event)) with (@nil CaptionSegment).
  - simpl. now rewrite andb_false_r.
  - symmetry. induction Hev as [|seg segs Hseg _ IHs]; simpl; [reflexivity | ].
    rewrite Hseg, String.eqb_refl. exact IHs.
Qed.

(** C10. When the extraction gives no span, the SRT text is empty, the VTT
    text is the header line and one blank line, and the plain text is
    empty. *)
Theorem export_of_no_span {sorter : SliceSorter} (unrepresentable : float64 -> Z) (c : Caption) :
  GetSubtitleText c = [] ->
  GetSRT unrepresentable c = ""
  /\ GetVTT unrepresentable c = "WEBVTT" +++ newline +++ newline
  /\ GetPlainText c = "".
Proof.
  intros H. unfold GetSRT, GetVTT, GetPlainText. rewrite H. repeat split.
Qed.

Lemma export_of_no_span_witness :
  GetSRT (fun _ => 0) silent_caption = ""
  /\ GetVTT (fun _ => 0) silent_caption = "WEBVTT" +++ newline +++ newline
  /\ GetPlainText silent_caption = "".
Proof.
  apply (@export_of_no_span insertion_sorter (fun _ => 0) silent_caption).
  apply newline_events_give_nothing. repeat constructor.
Defined.

(** ** Video identifiers *)

Lemma videoID_class_alphabet (c : ascii) : videoID_class c = in_alphabet c.
Proof.
  destruct c as [[|] [|] [|] [|] [|] [|] [|] [|]]; vm_compute; reflexivity.
Qed.

Lemma match_class_repeat_spec (cls : ascii -> bool) (n : nat) (s : string) :
  match_class_repeat cls n s = true
  <-> String.length s = n /\ Forall (fun c => cls c = true) (list_ascii_of_string s).
Proof.
  revert s. induction n as [|n IH]; intros [|c s]; simpl.
  - split; [now split | reflexivity].
  - split; [discriminate | intros [H _]; discriminate H].
  - split; [discriminate | intros [H _]; discriminate H].
  - rewrite andb_true_iff, IH. split.
    + intros (Hc & Hl & Hs). split; [now f_equal | now constructor].
    + intros (Hl & Hs). apply Forall_cons_iff in Hs as [Hc Hs].
      repeat split; auto.
Qed.

Lemma validateVideoID_accepts (videoID : string) :
  String.length videoID = 11%nat ->
  Forall (fun c => in_alphabet c = true) (list_ascii_of_string videoID) ->
  validateVideoID videoID = None.
Proof.
  intros Hl Hc. unfold validateVideoID, videoIDRegex_MatchString.
  destruct videoID as [|c s]; [discriminate Hl | ].
  change (String c s =? "")%string with false. cbv iota.
  replace (match_class_repeat videoID_class 11 (String c s)) with true; [reflexivity | ].
  symmetry. apply match_class_repeat_spec. split; [exact Hl | ].
  apply (Forall_impl _ (P := fun c => in_alphabet c = true)); [ | exact Hc].
  intros a Ha. now rewrite videoID_class_alphabet.
Qed.

Lemma validateVideoID_rejects (videoID : string) :
  String.length videoID <> 11%nat
  \/ (exists c, In c (list_ascii_of_string videoID) /\ in_alphabet c = false) ->
  validateVideoID videoID = Some ErrInvalidVideoID.
Proof.
  intros H. unfold validateVideoID, videoIDRegex_MatchString.
  destruct (videoID =? "")%string; [reflexivity | ].
  destruct (match_class_repeat videoID_class 11 videoID) eqn:E; [ | reflexivity].
  exfalso. apply match_class_repeat_spec in E as [Hl Hc].
  destruct H as [H | (c & Hin & Hout)]; [now apply H | ].
  rewrite Forall_forall in Hc. specialize (Hc c Hin).
  rewrite videoID_class_alphabet in Hc. congruence.
Qed.

(** C7. An identifier whose length is not 11, or that holds a byte outside
    [[A-Za-z0-9_-]], makes the download fail with [ErrInvalidVideoID] in
    the world it was called in: nothing is sent, the clock and the random
    source are not read, whatever the network would answer.  An identifier
    of 11 bytes of the alphabet passes the validation. *)
Theorem invalid_id_fails_before_network (unrepresentable : float64 -> Z) (videoID : string) :
  (String.length videoID <> 11%nat
   \/ (exists c, In c (list_ascii_of_string videoID) /\ in_alphabet c = false) ->
   validateVideoID videoID = Some ErrInvalidVideoID
   /\ forall (env : Env) (fuel : nat) (opts : option Options) (w : World),
       DownloadWithContext unrepresentable env fuel videoID opts w
       = Some (Err ErrInvalidVideoID, w)
       /\ Download unrepresentable env fuel videoID w = Some (Err ErrInvalidVideoID, w)
       /\ forall o : Options,
           DownloadWithOptions unrepresentable env fuel videoID o w
           = Some (Err ErrInvalidVideoID, w))
  /\ (String.length videoID = 11%nat ->
      Forall (fun c => in_alphabet c = true) (list_ascii_of_string videoID) ->
      validateVideoID videoID = None).
Proof.
  split.
  - intros H. pose proof (validateVideoID_rejects videoID H) as Hv.
    split; [exact Hv | ].
    intros env fuel opts w.
    unfold Download, DownloadWithOptions, DownloadWithContext. rewrite Hv.
    repeat split.
  - apply validateVideoID_accepts.
Qed.

Lemma invalid_id_fails_before_network_witness :
  (validateVideoID "too-short" = Some ErrInvalidVideoID
   /\ forall (env : Env) (fuel : nat) (opts : option Options) (w : World),
       DownloadWithContext (fun _ => 0) env fuel "too-short" opts w
       = Some (Err ErrInvalidVideoID, w)
       /\ Download (fun _ => 0) env fuel "too-short" w = Some (Err ErrInvalidVideoID, w)
       /\ forall o : Options,
           DownloadWithOptions (fun _ => 0) env fuel "too-short" o w
           = Some (Err ErrInvalidVideoID, w))
  /\ validateVideoID "vStJoetOxJg" = None.
Proof.
  split.
  - apply (proj1 (invalid_id_fails_before_network (fun _ => 0) "too-short")).
    left. vm_compute. discriminate.
  - apply (proj2 (invalid_id_fails_before_network (fun _ => 0) "vStJoetOxJg")).
    + reflexivity.
    + vm_compute. repeat constructor.
Defined.

(** ** The transport *)

Section RetryFacts.

Variable unrepresentable : float64 -> Z.
Variable env : Env.

Lemma operation_classifies (req : Request) (resp : option Response) (w : World) (rsp : Response) :
  serve env (List.length (sent w)) req = DoResponse rsp ->
  retryable (StatusCode rsp) ->
  operation env req resp w
  = (Some (classified (StatusCode rsp)), Some rsp, snd (client_Do env req w)).
Proof.
  intros Hs Hr. unfold operation, client_Do, classified. rewrite Hs.
  destruct Hr as [Hr | Hr].
  - replace (StatusCode rsp =? 200) with false by (symmetry; apply Z.eqb_neq; lia).
    replace (StatusCode rsp =? 429) with false by (symmetry; apply Z.eqb_neq; lia).
    replace (StatusCode rsp =? 404) with false by (symmetry; apply Z.eqb_neq; lia).
    replace (500 <=? StatusCode rsp) with true by (symmetry; apply Z.leb_le; lia).
    reflexivity.
  - rewrite Hr. reflexivity.
Qed.

Lemma operation_client_error (req : Request) (resp : option Response) (w : World) (rsp : Response) :
  serve env (List.length (sent w)) req = DoResponse rsp ->
  400 <= StatusCode rsp < 500 -> StatusCode rsp <> 429 ->
  operation env req resp w
  = (Some (if StatusCode rsp =? 404 then ErrNoCaptionsFound
           else Errorf ("HTTP " +++ fmt_d (StatusCode rsp) +++ ": " +++ Status rsp)),
     Some rsp, snd (client_Do env req w)).
Proof.
  intros Hs Hr Hn. unfold operation, client_Do. rewrite Hs.
  replace (StatusCode rsp =? 200) with false by (symmetry; apply Z.eqb_neq; lia).
  replace (StatusCode rsp =? 429) with false by (symmetry; apply Z.eqb_neq; lia).
  destruct (StatusCode rsp =? 404); [reflexivity | ].
  replace (500 <=? StatusCode rsp) with false by (symmetry; apply Z.leb_gt; lia).
  reflexivity.
Qed.

Lemma Retry_loop_step {S : Type} (fuel : nat)
      (op : S -> World -> option error * S * World)
      (b : ExponentialBackOff) (s s1 : S) (w w1 : World) (e : error) :
  op s w = (Some e, s1, w1) ->
  Retry_loop unrepresentable env (Datatypes.S fuel) op b s w
  = (let '(next, b', w2) := NextBackOff unrepresentable env b w1 in
     if next =? Stop then Some (Some e, s1, w2)
     else Retry_loop unrepresentable env fuel op b' s1 (sleep next w2)).
Proof. intros H. simpl. rewrite H. reflexivity. Qed.

Lemma Retry_loop_success {S : Type} (fuel : nat)
      (op : S -> World -> option error * S * World)
      (b : ExponentialBackOff) (s s1 : S) (w w1 : World) :
  op s w = (None, s1, w1) ->
  Retry_loop unrepresentable env (Datatypes.S fuel) op b s w = Some (None, s1, w1).
Proof. intros H. simpl. rewrite H. reflexivity. Qed.


End RetryFacts.

Section RetryScenarios.

Variable unrepresentable : float64 -> Z.

(** More fuel does not change the outcome of a call that ended. *)
Lemma Retry_loop_fuel {S : Type} (env : Env) (op : S -> World -> option error * S * World)
      (fuel fuel' : nat) :
  (fuel <= fuel')%nat ->
  forall (b : ExponentialBackOff) (s : S) (w : World) r,
    Retry_loop unrepresentable env fuel op b s w = Some r ->
    Retry_loop unrepresentable env fuel' op b s w = Some r.
Proof.
  revert fuel'. induction fuel as [|fuel IH]; intros fuel' Hle b s w r H; [discriminate H | ].
  destruct fuel' as [|fuel']; [lia | ].
  simpl in *.
  destruct (op s w) as [[[e|] s1] w1]; [ | exact H].
  destruct (NextBackOff unrepresentable env b w1) as [[next b'] w2].
  destruct (next =? Stop); [exact H | ].
  apply IH; [lia | exact H].
Qed.

Lemma makeRequestWithRetry_fuel (env : Env) (fuel fuel' : nat) (req : Request)
      (maxRetries : Z) (w : World) r :
  (fuel <= fuel')%nat ->
  summary (makeRequestWithRetry unrepresentable env fuel req maxRetries w) = Some r ->
  summary (makeRequestWithRetry unrepresentable env fuel' req maxRetries w) = Some r.
Proof.
  intros Hle. unfold makeRequestWithRetry, Retry.
  destruct (Retry_loop unrepresentable env fuel _ _ _ _) as [[[err resp] w']|] eqn:E;
    [ | discriminate].
  now rewrite (Retry_loop_fuel env _ fuel fuel' Hle _ _ _ _ E).
Qed.

Lemma Retry_loop_always_429 (env : Env) (req : Request) (fuel : nat) :
  always_429 env ->
  forall (b : ExponentialBackOff) (resp : option Response) (w : World) r,
    Retry_loop unrepresentable env fuel (operation env req) b resp w = Some r ->
    exists rsp w', r = (Some ErrRateLimited, Some rsp, w') /\ StatusCode rsp = 429.
Proof.
  intros Hall. induction fuel as [|fuel IH]; intros b resp w r H; [discriminate H | ].
  destruct (Hall (List.length (sent w)) req) as (rsp & Hs & Hc).
  rewrite (Retry_loop_step unrepresentable env fuel _ b resp (Some rsp) w _ _
             (operation_classifies env req resp w rsp Hs (or_intror Hc))) in H.
  destruct (NextBackOff unrepresentable env b _) as [[next b'] w2].
  unfold classified in H. rewrite Hc in H. simpl in H.
  destruct (next =? Stop).
  - injection H as <-. now exists rsp, w2.
  - apply IH in H. exact H.
Qed.


(** C5, on the code. The current transport fails an attempt answered 404
    with [ErrNoCaptionsFound], and one answered with another 4xx with a
    plain error, but the loop retries every error: answers 404, 200 and
    answers 403, 200 both end in success after a second request, and a
    server that keeps answering 404 is asked 9 times before the call
    fails.  The older transport of caption.go does not retry a 4xx: it
    sends one request and hands the response back without an error, which
    its caller reports as a bad status. *)
Theorem client_errors_are_retried :
  (forall (env : Env) (req : Request) (resp : option Response) (w : World) (rsp : Response)
          (fuel : nat) (b : ExponentialBackOff),
      serve env (List.length (sent w)) req = DoResponse rsp ->
      400 <= StatusCode rsp < 500 -> StatusCode rsp <> 429 ->
      Retry_loop unrepresentable env (S fuel) (operation env req) b resp w
      = (let '(next, b', w2) :=
           NextBackOff unrepresentable env b (snd (client_Do env req w)) in
         if next =? Stop then
           Some (Some (if StatusCode rsp =? 404 then ErrNoCaptionsFound
                       else Errorf ("HTTP " +++ fmt_d (StatusCode rsp) +++ ": " +++ Status rsp)),
                 Some rsp, w2)
         else Retry_loop unrepresentable env fuel (operation env req) b' (Some rsp)
                (sleep next w2)))
  /\ (forall fuel, (2 <= fuel)%nat ->
         summary (makeRequestWithRetry unrepresentable (scripted [404; 200] 200 0)
                    fuel get_request 3 start_world)
         = Some (Some 200, None, 2%nat, 500000000))
  /\ (forall fuel, (2 <= fuel)%nat ->
         summary (makeRequestWithRetry unrepresentable (scripted [403; 200] 200 0)
                    fuel get_request 3 start_world)
         = Some (Some 200, None, 2%nat, 500000000))
  /\ (forall fuel, (9 <= fuel)%nat ->
         summary (makeRequestWithRetry unrepresentable (scripted [] 404 0)
                    fuel get_request 3 start_world)
         = Some (Some 404, Some ErrNoCaptionsFound, 9%nat, 24628906250))
  /\ (forall (env : Env) (req : Request) (w : World) (rsp : Response) (fuel : nat),
         serve env (List.length (sent w)) req = DoResponse rsp ->
         400 <= StatusCode rsp < 500 -> StatusCode rsp <> 429 ->
         Legacy.makeRequestWithRetry unrepresentable env (S fuel) req w
         = Some (Some rsp, None, snd (client_Do env req w)))
  /\ (forall fuel, (1 <= fuel)%nat ->
         option_map fst
           (Legacy.requestTimedText unrepresentable (scripted [404; 200] 200 0) fuel
              (URL get_request) start_world)
         = Some (Err (Errorf "request returned status 404"))).
Proof.
  split; [ | repeat split ].
  - intros env req resp w rsp fuel b Hs Hr Hn.
    apply Retry_loop_step. now apply operation_client_error.
  - intros fuel Hf. apply (makeRequestWithRetry_fuel _ 2 fuel); [exact Hf | ].
    vm_compute. reflexivity.
  - intros fuel Hf. apply (makeRequestWithRetry_fuel _ 2 fuel); [exact Hf | ].
    vm_compute. reflexivity.
  - intros fuel Hf. apply (makeRequestWithRetry_fuel _ 9 fuel); [exact Hf | ].
    vm_compute. reflexivity.
  - intros env req w rsp fuel Hs Hr Hn.
    unfold Legacy.makeRequestWithRetry, Retry. simpl.
    unfold Legacy.operation, client_Do. rewrite Hs.
    replace (500 <=? StatusCode rsp) with false by (symmetry; apply Z.leb_gt; lia).
    replace (StatusCode rsp =? 429) with false by (symmetry; apply Z.eqb_neq; lia).
    reflexivity.
  - intros [|fuel] Hf; [lia | ]. vm_compute. reflexivity.
Qed.

End RetryScenarios.

(* ================================================================== *)
(** * Part III: further properties of the code *)
(* ================================================================== *)

(** ** The transport: what a call sends and what its success means *)

Section TransportTrace.

Variable unrepresentable : float64 -> Z.
Variable env : Env.

Lemma operation_world (req : Request) (resp resp' : option Response) (w w' : World)
      (err : option error) :
  operation env req resp w = (err, resp', w') ->
  sent w' = sent w ++ [req] /\ draws w' = draws w
  /\ now w' = now w + latency env (List.length (sent w)).
Proof.
  unfold operation, client_Do. intros H.
  destruct (serve env (List.length (sent w)) req) as [msg|rsp].
  - injection H as _ _ <-. repeat split.
  - destruct (StatusCode rsp =? 200); [injection H as _ _ <-; repeat split | ].
    destruct (StatusCode rsp =? 429); [injection H as _ _ <-; repeat split | ].
    destruct (StatusCode rsp =? 404); [injection H as _ _ <-; repeat split | ].
    destruct (500 <=? StatusCode rsp); injection H as _ _ <-; repeat split.
Qed.

Lemma operation_success (req : Request) (resp resp' : option Response) (w w' : World) :
  operation env req resp w = (None, resp', w') ->
  exists rsp, resp' = Some rsp /\ StatusCode rsp = 200
              /\ serve env (List.length (sent w)) req = DoResponse rsp.
Proof.
  unfold operation, client_Do. intros H.
  destruct (serve env (List.length (sent w)) req) as [msg|rsp]; [discriminate H | ].
  destruct (StatusCode rsp =? 200) eqn:E.
  - injection H as <- _. exists rsp. apply Z.eqb_eq in E. now repeat split.
  - destruct (StatusCode rsp =? 429); [discriminate H | ].
    destruct (StatusCode rsp =? 404); [discriminate H | ].
    destruct (500 <=? StatusCode rsp); discriminate H.
Qed.

Lemma Legacy_operation_world (req : Request) (resp resp' : option Response) (w w' : World)
      (err : option error) :
  Legacy.operation env req resp w = (err, resp', w') ->
  sent w' = sent w ++ [req] /\ draws w' = draws w.
Proof.
  unfold Legacy.operation, client_Do. intros H.
  destruct (serve env (List.length (sent w)) req) as [msg|rsp].
  - injection H as _ _ <-. repeat split.
  - destruct (_ || _); injection H as _ _ <-; repeat split.
Qed.

Lemma Legacy_operation_success (req : Request) (resp resp' : option Response) (w w' : World) :
  Legacy.operation env req resp w = (None, resp', w') ->
  exists rsp, resp' = Some rsp /\ StatusCode rsp < 500 /\ StatusCode rsp <> 429
              /\ serve env (List.length (sent w)) req = DoResponse rsp.
Proof.
  unfold Legacy.operation, client_Do. intros H.
  destruct (serve env (List.length (sent w)) req) as [msg|rsp]; [discriminate H | ].
  destruct ((500 <=? StatusCode rsp) || (StatusCode rsp =? 429)) eqn:E; [discriminate H | ].
  injection H as <- _. exists rsp.
  apply orb_false_iff in E as [E1 E2].
  apply Z.leb_gt in E1. apply Z.eqb_neq in E2. now repeat split.
Qed.

Lemma NextBackOff_world (b b' : ExponentialBackOff) (w w' : World) (d : Duration) :
  NextBackOff unrepresentable env b w = (d, b', w') ->
  sent w' = sent w /\ draws w' = S (draws w) /\ now w' = now w.
Proof.
  unfold NextBackOff. intros H.
  destruct (_ && _); injection H as _ _ <-; repeat split.
Qed.

(** The loop, for any closure that sends [req] once per call: the
    requests of the call are [n + 1] copies of [req], and the policy was
    asked once after every failed attempt. *)
Lemma Retry_loop_trace (req : Request)
      (op : option Response -> World -> option error * option Response * World) :
  (forall resp w err resp' w', op resp w = (err, resp', w') ->
                               sent w' = sent w ++ [req] /\ draws w' = draws w) ->
  forall (fuel : nat) (b : ExponentialBackOff) (resp resp' : option Response)
         (w w' : World) (err : option error),
    Retry_loop unrepresentable env fuel op b resp w = Some (err, resp', w') ->
    exists n : nat,
      sent w' = sent w ++ repeat req (S n)
      /\ draws w' = (draws w + (match err with None => n | Some _ => S n end))%nat
      /\ exists resp0 w0 w1,
          op resp0 w0 = (err, resp', w1)
          /\ List.length (sent w0) = (List.length (sent w) + n)%nat.
Proof.
  intros Hop. induction fuel as [|fuel IH]; intros b resp resp' w w' err H; [discriminate H | ].
  simpl in H.
  destruct (op resp w) as [[e r1] w1] eqn:Eop.
  destruct (Hop _ _ _ _ _ Eop) as [Hs Hd].
  destruct e as [e|].
  - destruct (NextBackOff unrepresentable env b w1) as [[next b'] w2] eqn:En.
    destruct (NextBackOff_world _ _ _ _ _ En) as (Hs2 & Hd2 & _).
    destruct (next =? Stop).
    + injection H as <- <- <-. exists O. repeat split.
      * now rewrite Hs2, Hs.
      * rewrite Hd2, Hd. lia.
      * exists resp, w, w1. split; [exact Eop | lia].
    + apply IH in H. destruct H as (n & Hsn & Hdn & resp0 & w0 & w3 & Hop0 & Hlen).
      simpl in Hsn, Hdn, Hlen. exists (S n). repeat split.
      * rewrite Hsn, Hs2, Hs, <- app_assoc. reflexivity.
      * rewrite Hdn, Hd2, Hd. destruct err; lia.
      * exists resp0, w0, w3. split; [exact Hop0 | ].
        rewrite Hlen, Hs2, Hs, length_app. simpl. lia.
  - injection H as <- <- <-. exists O. repeat split.
    + exact Hs.
    + rewrite Hd. lia.
    + exists resp, w, w1. split; [exact Eop | lia].
Qed.

End TransportTrace.

Section TransportOutcome.

Variable unrepresentable : float64 -> Z.

Lemma makeRequestWithRetry_trace (env : Env) (fuel : nat) (req : Request) (maxRetries : Z)
      (w w' : World) (resp : option Response) (err : option error) :
  makeRequestWithRetry unrepresentable env fuel req maxRetries w = Some (resp, err, w') ->
  exists n : nat,
    sent w' = sent w ++ repeat req (S n)
    /\ draws w' = (draws w + (match err with None => n | Some _ => S n end))%nat
    /\ (err = None ->
        exists rsp, resp = Some rsp /\ StatusCode rsp = 200
                    /\ serve env (List.length (sent w) + n) req = DoResponse rsp).
Proof.
  unfold makeRequestWithRetry, Retry. intros H.
  destruct (Retry_loop unrepresentable env fuel _ _ _ _) as [[[e r] w1]|] eqn:E;
    [ | discriminate H].
  injection H as -> -> ->.
  apply (Retry_loop_trace unrepresentable env req) in E.
  - destruct E as (n & Hs & Hd & resp0 & w0 & w1 & Hop & Hlen).
    exists n. repeat split; [exact Hs | exact Hd | ].
    intros ->. apply operation_success in Hop.
    destruct Hop as (rsp & -> & Hc & Hsv). exists rsp. rewrite <- Hlen. now repeat split.
  - intros r0 w0 e0 r1 w1 Hop. apply operation_world in Hop. tauto.
Qed.

(** X1. A call of the transport that returns sends its request, and
    nothing else, one or more times, and draws one random number for
    every attempt that failed before the last one (and for the last one
    too when the call fails). *)
Theorem transport_sends_only_its_request (env : Env) (fuel : nat) (req : Request)
        (maxRetries : Z) (w w' : World) (resp : option Response) (err : option error) :
  makeRequestWithRetry unrepresentable env fuel req maxRetries w = Some (resp, err, w') ->
  exists n : nat,
    sent w' = sent w ++ repeat req (S n)
    /\ draws w' = (draws w + (match err with None => n | Some _ => S n end))%nat.
Proof.
  intros H. apply makeRequestWithRetry_trace in H.
  destruct H as (n & Hs & Hd & _). now exists n.
Qed.

(** X2. A nil error of the transport always comes with a response, the one
    the server gave to the last request sent, and its status is 200: the
    callers need not look at the status. *)
Theorem transport_nil_error_means_200 (env : Env) (fuel : nat) (req : Request)
        (maxRetries : Z) (w w' : World) (resp : option Response) :
  makeRequestWithRetry unrepresentable env fuel req maxRetries w = Some (resp, None, w') ->
  exists rsp, resp = Some rsp /\ StatusCode rsp = 200
              /\ serve env (Nat.pred (List.length (sent w'))) req = DoResponse rsp.
Proof.
  intros H. apply makeRequestWithRetry_trace in H.
  destruct H as (n & Hs & _ & H). destruct (H eq_refl) as (rsp & -> & Hc & Hsv).
  exists rsp. repeat split; [exact Hc | ].
  rewrite Hs, length_app, repeat_length.
  replace (Nat.pred (List.length (sent w) + S n)) with (List.length (sent w) + n)%nat by lia.
  exact Hsv.
Qed.

Lemma Legacy_makeRequestWithRetry_nil (env : Env) (fuel : nat) (req : Request)
      (w w' : World) (resp : option Response) :
  Legacy.makeRequestWithRetry unrepresentable env fuel req w = Some (resp, None, w') ->
  exists rsp (n : nat),
    resp = Some rsp /\ StatusCode rsp < 500 /\ StatusCode rsp <> 429
    /\ sent w' = sent w ++ repeat req (S n)
    /\ serve env (List.length (sent w) + n) req = DoResponse rsp.
Proof.
  unfold Legacy.makeRequestWithRetry, Retry. intros H.
  destruct (Retry_loop unrepresentable env fuel _ _ _ _) as [[[e r] w1]|] eqn:E;
    [ | discriminate H].
  injection H as -> -> ->.
  apply (Retry_loop_trace unrepresentable env req) in E.
  - destruct E as (n & Hs & _ & resp0 & w0 & w1 & Hop & Hlen).
    apply Legacy_operation_success in Hop.
    destruct Hop as (rsp & -> & H1 & H2 & Hsv). exists rsp, n.
    rewrite <- Hlen. now repeat split.
  - intros r0 w0 e0 r1 w1 Hop. now apply Legacy_operation_world in Hop.
Qed.

(** X3. The older transport returns a nil error for every status but 5xx
    and 429, a 404 included: its nil error only says that the status of
    the response is below 500 and is not 429. *)
Theorem legacy_nil_error_any_other_status (env : Env) (fuel : nat) (req : Request)
        (w w' : World) (resp : option Response) :
  Legacy.makeRequestWithRetry unrepresentable env fuel req w = Some (resp, None, w') ->
  exists rsp (n : nat),
    resp = Some rsp /\ StatusCode rsp < 500 /\ StatusCode rsp <> 429
    /\ sent w' = sent w ++ repeat req (S n)
    /\ serve env (List.length (sent w) + n) req = DoResponse rsp.
Proof. apply Legacy_makeRequestWithRetry_nil. Qed.

End TransportOutcome.

Lemma transport_sends_only_its_request_witness :
  exists n : nat,
    sent (world_after 1250000000 3 2) = sent start_world ++ repeat get_request (S n)
    /\ draws (world_after 1250000000 3 2) = (draws start_world + n)%nat.
Proof.
  apply (transport_sends_only_its_request (fun _ => 0) (scripted [503; 503; 200] 200 0)
           3 get_request 3 start_world (world_after 1250000000 3 2)
           (Some (answered 200)) None).
  vm_compute. reflexivity.
Defined.

Lemma transport_nil_error_means_200_witness :
  exists rsp, Some (answered 200) = Some rsp /\ StatusCode rsp = 200
              /\ serve (scripted [503; 503; 200] 200 0)
                   (Nat.pred (List.length (sent (world_after 1250000000 3 2)))) get_request
                 = DoResponse rsp.
Proof.
  apply (transport_nil_error_means_200 (fun _ => 0) (scripted [503; 503; 200] 200 0)
           3 get_request 3 start_world (world_after 1250000000 3 2) (Some (answered 200))).
  vm_compute. reflexivity.
Defined.

Lemma legacy_nil_error_any_other_status_witness :
  exists rsp (n : nat),
    Some (answered 404) = Some rsp /\ StatusCode rsp < 500 /\ StatusCode rsp <> 429
    /\ sent (world_after 0 1 0) = sent start_world ++ repeat get_request (S n)
    /\ serve (scripted [404] 200 0) (List.length (sent start_world) + n) get_request
       = DoResponse rsp.
Proof.
  apply (legacy_nil_error_any_other_status (fun _ => 0) (scripted [404] 200 0)
           1 get_request start_world (world_after 0 1 0) (Some (answered 404))).
  vm_compute. reflexivity.
Defined.

(** ** Track selection: what the answer is, and when there is none *)

Lemma has_url_true (t : CaptionTrack) : has_url t = true <-> BaseURL t <> "".
Proof.
  unfold has_url. rewrite negb_true_iff. split.
  - intros H E. rewrite E in H. discriminate H.
  - intros H. apply String.eqb_neq. exact H.
Qed.

Lemma has_url_false (t : CaptionTrack) : has_url t = false <-> BaseURL t = "".
Proof. unfold has_url. rewrite negb_false_iff. apply String.eqb_eq. Qed.

Lemma find_language_kind_find (tracks : list CaptionTrack) (opts : Options) :
  find_language_kind tracks opts = find (tier1 (Language opts) (Options_Kind opts)) tracks.
Proof.
  induction tracks as [|t tracks IH]; simpl; [reflexivity | ].
  unfold tier1 at 1, has_url.
  destruct ((LanguageCode t =? Language opts)%string && (Kind t =? Options_Kind opts)%string);
    simpl; [ | exact IH].
  destruct (BaseURL t =? "")%string; simpl; [exact IH | reflexivity].
Qed.

Lemma find_language_find (tracks : list CaptionTrack) (opts : Options) :
  find_language tracks opts = find (tier2 (Language opts)) tracks.
Proof.
  induction tracks as [|t tracks IH]; simpl; [reflexivity | ].
  unfold tier2 at 1, has_url.
  destruct (LanguageCode t =? Language opts)%string; simpl; [ | exact IH].
  destruct (BaseURL t =? "")%string; simpl; [exact IH | reflexivity].
Qed.

Lemma tier1_tier2 (language kind : string) (t : CaptionTrack) :
  tier1 language kind t = true -> tier2 language t = true.
Proof.
  unfold tier1, tier2. intros H.
  apply andb_true_iff in H as [H ->]. apply andb_true_iff in H as [-> _]. reflexivity.
Qed.

Lemma findCaptionTrack_sound (tracks : list CaptionTrack) (opts : Options)
      (t : CaptionTrack) :
  findCaptionTrack tracks opts = Ok t -> In t tracks /\ BaseURL t <> "".
Proof.
  unfold findCaptionTrack. rewrite find_language_kind_find, find_language_find.
  destruct (find (tier1 _ _) tracks) as [t1|] eqn:E1.
  - intros H. injection H as <-. apply find_some in E1 as [Hin Ht]. split; [exact Hin | ].
    apply has_url_true. unfold tier1 in Ht. now apply andb_true_iff in Ht as [_ Ht].
  - destruct (find (tier2 _) tracks) as [t2|] eqn:E2.
    + intros H. injection H as <-. apply find_some in E2 as [Hin Ht]. split; [exact Hin | ].
      apply has_url_true. unfold tier2 in Ht. now apply andb_true_iff in Ht as [_ Ht].
    + destruct tracks as [|t0 rest]; [discriminate | ].
      destruct (BaseURL t0 =? "")%string eqn:E0; simpl; [discriminate | ].
      intros H. injection H as <-. split; [now left | ].
      now apply String.eqb_neq.
Qed.

(** X4. A selected track is one of the list and has a URL: the selector
    never invents a track and never hands back one that cannot be
    fetched. *)
Theorem selected_track_is_listed_with_url (tracks : list CaptionTrack) (opts : Options)
        (t : CaptionTrack) :
  findCaptionTrack tracks opts = Ok t -> In t tracks /\ BaseURL t <> "".
Proof. apply findCaptionTrack_sound. Qed.

Lemma selected_track_is_listed_with_url_witness :
  In (track "https://example.invalid/tt?v=1&lang=en" "en" "asr") demo_tracks
  /\ BaseURL (track "https://example.invalid/tt?v=1&lang=en" "en" "asr") <> "".
Proof.
  apply (selected_track_is_listed_with_url demo_tracks DefaultOptions). reflexivity.
Defined.

(** X5. When some track of the requested language has a URL, the selected
    track is of that language, wherever it stands in the list; when some
    track of the requested language and kind has a URL, the selected track
    is of that kind too. *)
Theorem selection_prefers_the_language (tracks : list CaptionTrack) (opts : Options)
        (t' : CaptionTrack) :
  In t' tracks -> LanguageCode t' = Language opts -> BaseURL t' <> "" ->
  exists t, findCaptionTrack tracks opts = Ok t
            /\ LanguageCode t = Language opts
            /\ (Kind t' = Options_Kind opts -> Kind t = Options_Kind opts).
Proof.
  intros Hin Hl Hu.
  assert (H2 : tier2 (Language opts) t' = true).
  { unfold tier2. apply andb_true_iff. split; [now apply String.eqb_eq | now apply has_url_true]. }
  unfold findCaptionTrack. rewrite find_language_kind_find, find_language_find.
  destruct (find (tier1 _ _) tracks) as [t1|] eqn:E1.
  - exists t1. apply find_some in E1 as [_ Ht]. unfold tier1 in Ht.
    apply andb_true_iff in Ht as [Ht _]. apply andb_true_iff in Ht as [Ha Hb].
    apply String.eqb_eq in Ha, Hb. now repeat split.
  - destruct (find (tier2 _) tracks) as [t2|] eqn:E2.
    + exists t2. apply find_some in E2 as [_ Ht]. unfold tier2 in Ht.
      apply andb_true_iff in Ht as [Ha _]. apply String.eqb_eq in Ha.
      repeat split; [exact Ha | ].
      intros Hk. exfalso.
      pose proof (find_none _ _ E1 t' Hin) as N. unfold tier1 in N.
      rewrite Hl, Hk, !String.eqb_refl in N. simpl in N.
      apply has_url_false in N. contradiction.
    + exfalso. pose proof (find_none _ _ E2 t' Hin) as N. congruence.
Qed.

Lemma selection_prefers_the_language_witness :
  exists t, findCaptionTrack demo_tracks DefaultOptions = Ok t
            /\ LanguageCode t = Language DefaultOptions
            /\ (Kind (track "https://example.invalid/tt?v=1&lang=en" "en" "asr")
                = Options_Kind DefaultOptions -> Kind t = Options_Kind DefaultOptions).
Proof.
  apply (selection_prefers_the_language demo_tracks DefaultOptions
           (track "https://example.invalid/tt?v=1&lang=en" "en" "asr")).
  - right. left. reflexivity.
  - reflexivity.
  - discriminate.
Defined.

(** X6. The selector fails with [ErrNoCaptionsFound] and with no other
    error, and only when no track of the requested language has a URL and
    the list is empty or starts with a track without URL. *)
Theorem selection_failure (tracks : list CaptionTrack) (opts : Options) (e : error) :
  findCaptionTrack tracks opts = Err e ->
  e = ErrNoCaptionsFound
  /\ (forall t, In t tracks -> LanguageCode t = Language opts -> BaseURL t = "")
  /\ (forall t0 rest, tracks = t0 :: rest -> BaseURL t0 = "").
Proof.
  unfold findCaptionTrack. rewrite find_language_kind_find, find_language_find.
  destruct (find (tier1 _ _) tracks) as [t1|] eqn:E1; [discriminate | ].
  destruct (find (tier2 _) tracks) as [t2|] eqn:E2; [discriminate | ].
  intros H.
  assert (Hlang : forall t, In t tracks -> LanguageCode t = Language opts -> BaseURL t = "").
  { intros t Hin Hl. pose proof (find_none _ _ E2 t Hin) as N. unfold tier2 in N.
    rewrite Hl, String.eqb_refl in N. simpl in N. now apply has_url_false. }
  destruct tracks as [|t0 rest].
  - injection H as <-. repeat split; [exact Hlang | discriminate].
  - destruct (BaseURL t0 =? "")%string eqn:E0; simpl in H; [ | discriminate H].
    injection H as <-. repeat split; [exact Hlang | ].
    intros t0' rest' Heq. injection Heq as <- _. now apply String.eqb_eq.
Qed.

Lemma selection_failure_witness :
  ErrNoCaptionsFound = ErrNoCaptionsFound
  /\ (forall t, In t [track "" "es" "asr"; track "u2" "fr" "asr"] ->
                LanguageCode t = Language (request "en" "asr") -> BaseURL t = "")
  /\ (forall t0 rest, [track "" "es" "asr"; track "u2" "fr" "asr"] = t0 :: rest ->
                      BaseURL t0 = "").
Proof.
  apply (selection_failure [track "" "es" "asr"; track "u2" "fr" "asr"] (request "en" "asr")).
  reflexivity.
Defined.

(** ** The two round trips *)

Section RoundTrips.

Variable unrepresentable : float64 -> Z.
Variable env : Env.

Lemma extractCaptionTracks_ok (resp : Response) (tracks : list CaptionTrack) :
  extractCaptionTracks resp = Ok tracks ->
  readable (RespBody resp) = true /\ player_json (RespBody resp) = Some tracks /\ tracks <> [].
Proof.
  unfold extractCaptionTracks.
  destruct (readable (RespBody resp)); simpl; [ | discriminate].
  destruct (player_json (RespBody resp)) as [l|]; [ | discriminate].
  destruct l as [|t l]; simpl; [discriminate | ].
  intros H. injection H as <-. repeat split. discriminate.
Qed.

Lemma requestCaptionTrack_ok (fuel : nat) (videoID : string) (opts : Options)
      (w w' : World) (t : CaptionTrack) :
  requestCaptionTrack unrepresentable env fuel videoID opts w = Some (Ok t, w') ->
  exists (n : nat) (rsp : Response) (tracks : list CaptionTrack),
    sent w' = sent w ++ repeat (player_request videoID (UserAgent opts)) (S n)
    /\ serve env (List.length (sent w) + n) (player_request videoID (UserAgent opts))
       = DoResponse rsp
    /\ StatusCode rsp = 200
    /\ player_json (RespBody rsp) = Some tracks
    /\ findCaptionTrack tracks opts = Ok t.
Proof.
  unfold requestCaptionTrack. fold (player_request videoID (UserAgent opts)).
  destruct (makeRequestWithRetry _ _ _ _ _ _) as [[[resp err] w1]|] eqn:E; [ | discriminate].
  destruct err as [e|]; [destruct resp; discriminate | ].
  apply makeRequestWithRetry_trace in E.
  destruct E as (n & Hs & _ & H). destruct (H eq_refl) as (rsp & -> & Hc & Hsv).
  destruct (extractCaptionTracks rsp) as [tracks|e] eqn:Ex; [ | discriminate].
  destruct (findCaptionTrack tracks opts) as [t1|e] eqn:Ef; [ | discriminate].
  intros K. injection K as <- <-.
  apply extractCaptionTracks_ok in Ex as (_ & Hj & _).
  now exists n, rsp, tracks.
Qed.

Lemma requestTimedText_ok (fuel : nat) (t : CaptionTrack) (opts : Options)
      (w w' : World) (caption : Caption) :
  requestTimedText unrepresentable env fuel t opts w = Some (Ok caption, w') ->
  exists (m : nat) (rsp : Response),
    sent w' = sent w ++ repeat (caption_request (BaseURL t) (UserAgent opts)) (S m)
    /\ serve env (List.length (sent w) + m) (caption_request (BaseURL t) (UserAgent opts))
       = DoResponse rsp
    /\ StatusCode rsp = 200
    /\ caption_json (RespBody rsp) = Some caption.
Proof.
  unfold requestTimedText. fold (caption_request (BaseURL t) (UserAgent opts)).
  destruct (valid_url env _); simpl; [ | discriminate].
  destruct (makeRequestWithRetry _ _ _ _ _ _) as [[[resp err] w1]|] eqn:E; [ | discriminate].
  destruct err as [e|]; [destruct resp; discriminate | ].
  apply makeRequestWithRetry_trace in E.
  destruct E as (m & Hs & _ & H). destruct (H eq_refl) as (rsp & -> & Hc & Hsv).
  destruct (readable (RespBody rsp)); simpl; [ | discriminate].
  destruct (caption_json (RespBody rsp)) as [c|] eqn:Ej; [ | discriminate].
  intros K. injection K as <- <-.
  now exists m, rsp.
Qed.

(** X7. A download that succeeds has done exactly this: it sent the
    player request one or more times, got a 200 whose tracks select a
    track with a URL, then sent the GET of that URL with [&fmt=json3]
    appended one or more times, and returns the caption decoded from the
    200 answer to the last one.  Nothing else is ever sent. *)
Theorem download_success_protocol (fuel : nat) (videoID : string) (opts : option Options)
        (w w' : World) (caption : Caption) :
  DownloadWithContext unrepresentable env fuel videoID opts w = Some (Ok caption, w') ->
  validateVideoID videoID = None
  /\ exists (n m : nat) (tracks : list CaptionTrack) (t : CaptionTrack) (rsp1 rsp2 : Response),
      let ua := UserAgent (effective opts) in
      sent w' = sent w ++ repeat (player_request videoID ua) (S n)
                       ++ repeat (caption_request (BaseURL t) ua) (S m)
      /\ serve env (List.length (sent w) + n) (player_request videoID ua) = DoResponse rsp1
      /\ StatusCode rsp1 = 200
      /\ player_json (RespBody rsp1) = Some tracks
      /\ findCaptionTrack tracks (effective opts) = Ok t
      /\ In t tracks /\ BaseURL t <> ""
      /\ serve env (List.length (sent w) + S n + m) (caption_request (BaseURL t) ua)
         = DoResponse rsp2
      /\ StatusCode rsp2 = 200
      /\ caption_json (RespBody rsp2) = Some caption.
Proof.
  unfold DownloadWithContext. fold (effective opts).
  destruct (validateVideoID videoID) as [e|]; [discriminate | ].
  destruct (requestCaptionTrack _ _ _ _ _ _) as [[[t|e] w1]|] eqn:E1; try discriminate.
  destruct (requestTimedText _ _ _ _ _ _) as [[[c|e] w2]|] eqn:E2; try discriminate.
  intros K. injection K as <- <-.
  split; [reflexivity | ].
  apply requestCaptionTrack_ok in E1.
  destruct E1 as (n & rsp1 & tracks & Hs1 & Hv1 & Hc1 & Hj1 & Hf).
  apply requestTimedText_ok in E2.
  destruct E2 as (m & rsp2 & Hs2 & Hv2 & Hc2 & Hj2).
  exists n, m, tracks, t, rsp1, rsp2. cbv zeta.
  destruct (findCaptionTrack_sound tracks (effective opts) t Hf) as [Hin Hu].
  repeat split; auto.
  - rewrite Hs2, Hs1, <- app_assoc. reflexivity.
  - rewrite Hs1, length_app, repeat_length in Hv2. exact Hv2.
Qed.

End RoundTrips.

Lemma download_success_protocol_witness :
  validateVideoID demo_id = None
  /\ exists (n m : nat) (tracks : list CaptionTrack) (t : CaptionTrack) (rsp1 rsp2 : Response),
      let ua := UserAgent (effective None) in
      sent demo_world = sent start_world ++ repeat (player_request demo_id ua) (S n)
                        ++ repeat (caption_request (BaseURL t) ua) (S m)
      /\ serve (good_server demo_tracks demo_caption)
           (List.length (sent start_world) + n) (player_request demo_id ua) = DoResponse rsp1
      /\ StatusCode rsp1 = 200
      /\ player_json (RespBody rsp1) = Some tracks
      /\ findCaptionTrack tracks (effective None) = Ok t
      /\ In t tracks /\ BaseURL t <> ""
      /\ serve (good_server demo_tracks demo_caption)
           (List.length (sent start_world) + S n + m) (caption_request (BaseURL t) ua)
         = DoResponse rsp2
      /\ StatusCode rsp2 = 200
      /\ caption_json (RespBody rsp2) = Some demo_caption.
Proof.
  apply (download_success_protocol (fun _ => 0) (good_server demo_tracks demo_caption)
           1 demo_id None start_world demo_world demo_caption).
  vm_compute. reflexivity.
Defined.

Section Failures.

Variable unrepresentable : float64 -> Z.
Variable env : Env.

Lemma requestCaptionTrack_sent (fuel : nat) (videoID : string) (opts : Options)
      (w w' : World) (r : result CaptionTrack) :
  requestCaptionTrack unrepresentable env fuel videoID opts w = Some (r, w') ->
  exists n : nat, sent w' = sent w ++ repeat (player_request videoID (UserAgent opts)) (S n).
Proof.
  unfold requestCaptionTrack. fold (player_request videoID (UserAgent opts)).
  destruct (makeRequestWithRetry _ _ _ _ _ _) as [[[resp err] w1]|] eqn:E; [ | discriminate].
  apply makeRequestWithRetry_trace in E. destruct E as (n & Hs & _).
  intros H. exists n.
  destruct err as [e|].
  - destruct resp; injection H as _ <-; exact Hs.
  - destruct resp as [rsp|]; [ | discriminate H].
    destruct (extractCaptionTracks rsp) as [tracks|e].
    + destruct (findCaptionTrack tracks opts); injection H as _ <-; exact Hs.
    + injection H as _ <-; exact Hs.
Qed.

Lemma findCaptionTrack_error (tracks : list CaptionTrack) (opts : Options) (e : error) :
  findCaptionTrack tracks opts = Err e -> e = ErrNoCaptionsFound.
Proof.
  unfold findCaptionTrack.
  destruct (find_language_kind tracks opts); [discriminate | ].
  destruct (find_language tracks opts); [discriminate | ].
  destruct tracks as [|t0 rest]; [intros H; now injection H as <- | ].
  destruct (negb (BaseURL t0 =? "")%string); [discriminate | intros H; now injection H as <-].
Qed.

Lemma requestCaptionTrack_error (fuel : nat) (videoID : string) (opts : Options)
      (w w' : World) (e : error) :
  requestCaptionTrack unrepresentable env fuel videoID opts w = Some (Err e, w') ->
  metadata_failure unrepresentable env fuel videoID opts w e w'.
Proof.
  unfold requestCaptionTrack, metadata_failure.
  fold (player_request videoID (UserAgent opts)). cbv zeta.
  destruct (makeRequestWithRetry _ _ _ _ _ _) as [[[resp err] w1]|] eqn:E; [ | discriminate].
  destruct err as [e0|].
  - intros H. left. exists resp, e0.
    destruct resp; injection H as <- <-; now split.
  - destruct resp as [rsp0|]; [ | discriminate].
    apply makeRequestWithRetry_trace in E.
    destruct E as (n & Hs & _ & H). destruct (H eq_refl) as (rsp & Hr & Hc & Hsv).
    injection Hr as ->.
    intros K. right. exists n, rsp.
    destruct (extractCaptionTracks rsp) as [tracks|e0] eqn:Ex.
    + destruct (findCaptionTrack tracks opts) as [t|e1] eqn:Ef; [discriminate K | ].
      injection K as <- <-.
      pose proof (findCaptionTrack_error _ _ _ Ef) as ->.
      apply extractCaptionTracks_ok in Ex as (_ & Hj & Hne).
      repeat split; auto. right. now exists tracks.
    + injection K as <- <-. repeat split; auto. left. now exists e0.
Qed.

Lemma requestTimedText_sent (fuel : nat) (t : CaptionTrack) (opts : Options)
      (w w' : World) (r : result Caption) :
  requestTimedText unrepresentable env fuel t opts w = Some (r, w') ->
  exists k : nat, sent w' = sent w ++ repeat (caption_request (BaseURL t) (UserAgent opts)) k.
Proof.
  unfold requestTimedText. fold (caption_request (BaseURL t) (UserAgent opts)).
  destruct (valid_url env _); simpl.
  - destruct (makeRequestWithRetry _ _ _ _ _ _) as [[[resp err] w1]|] eqn:E; [ | discriminate].
    apply makeRequestWithRetry_trace in E. destruct E as (n & Hs & _).
    intros H. exists (S n).
    destruct err as [e|].
    + destruct resp; injection H as _ <-; exact Hs.
    + destruct resp as [rsp|]; [ | discriminate H].
      destruct (readable (RespBody rsp)); simpl in H; [ | injection H as _ <-; exact Hs].
      destruct (caption_json (RespBody rsp)); injection H as _ <-; exact Hs.
  - intros H. injection H as _ <-. exists O. simpl. now rewrite app_nil_r.
Qed.

Lemma requestTimedText_error (fuel : nat) (t : CaptionTrack) (opts : Options)
      (w w' : World) (e : error) :
  requestTimedText unrepresentable env fuel t opts w = Some (Err e, w') ->
  payload_failure unrepresentable env fuel t opts w e w'.
Proof.
  unfold requestTimedText, payload_failure.
  fold (caption_request (BaseURL t) (UserAgent opts)). cbv zeta.
  destruct (valid_url env _); simpl.
  - destruct (makeRequestWithRetry _ _ _ _ _ _) as [[[resp err] w1]|] eqn:E; [ | discriminate].
    destruct err as [e0|].
    + intros H. right. left. split; [reflexivity | ]. exists resp, e0.
      destruct resp; injection H as <- <-; now split.
    + destruct resp as [rsp0|]; [ | discriminate].
      apply makeRequestWithRetry_trace in E.
      destruct E as (m & Hs & _ & H). destruct (H eq_refl) as (rsp & Hr & Hc & Hsv).
      injection Hr as ->.
      intros K. right. right. split; [reflexivity | ]. exists m, rsp.
      destruct (readable (RespBody rsp)) eqn:Er; simpl in K.
      * destruct (caption_json (RespBody rsp)) eqn:Ej; [discriminate K | ].
        injection K as <- <-. repeat split; auto.
      * injection K as <- <-. repeat split; auto.
  - intros H. injection H as <- <-. left. now repeat split.
Qed.

Lemma DownloadWithContext_failure (fuel : nat) (videoID : string) (opts : option Options)
        (w w' : World) (e : error) :
  DownloadWithContext unrepresentable env fuel videoID opts w = Some (Err e, w') ->
  download_failure unrepresentable env fuel videoID opts w e w'.
Proof.
  unfold DownloadWithContext, download_failure. fold (effective opts). cbv zeta.
  destruct (validateVideoID videoID) as [e0|] eqn:Ev.
  - intros H. injection H as <- <-. left.
    unfold validateVideoID in Ev.
    destruct (videoID =? "")%string; [injection Ev as <-; now repeat split | ].
    destruct (negb (videoIDRegex_MatchString videoID)); [ | discriminate Ev].
    injection Ev as <-. now repeat split.
  - intros K. right. split; [reflexivity | ].
    destruct (requestCaptionTrack _ _ _ _ _ _) as [[[t|e1] w1]|] eqn:E1; [ | | discriminate K].
    + destruct (requestCaptionTrack_sent _ _ _ _ _ _ E1) as (n & Hs1).
      destruct (requestTimedText _ _ _ _ _ _) as [[[c|e2] w2]|] eqn:E2;
        [discriminate K | | discriminate K].
      injection K as <- <-.
      destruct (requestTimedText_sent _ _ _ _ _ _ E2) as (k & Hs2).
      split.
      * eexists. rewrite Hs2, Hs1. simpl. rewrite <- app_assoc. simpl. reflexivity.
      * right. exists t, w1. split; [reflexivity | ]. now apply requestTimedText_error.
    + injection K as <- <-.
      destruct (requestCaptionTrack_sent _ _ _ _ _ _ E1) as (n & Hs1).
      split.
      * eexists. rewrite Hs1. simpl. reflexivity.
      * left. now apply requestCaptionTrack_error.
Qed.

(** X8. The failures of a download, each with where it comes from.
    [ErrInvalidVideoID] comes back for an identifier that fails the
    validation, with nothing sent.  An error of the transport, in either
    round trip, comes back wrapped in [failed to get response: ]: so the
    [ErrNoCaptionsFound] of a 404 and [ErrRateLimited] are never returned
    as they are.  A bare [ErrNoCaptionsFound] has one origin: the server
    answered the last player request with a 200 whose track list is not
    empty and has no usable track.  The other failures wrap their cause
    in one of four messages, after a 200 answer (or, for a URL that does
    not parse, before anything is sent for the track). *)
Theorem download_failure_kinds (fuel : nat) (videoID : string) (opts : option Options)
        (w w' : World) (e : error) :
  DownloadWithContext unrepresentable env fuel videoID opts w = Some (Err e, w') ->
  download_failure unrepresentable env fuel videoID opts w e w'.
Proof. apply DownloadWithContext_failure. Qed.

End Failures.

Lemma download_failure_kinds_witness :
  download_failure (fun _ => 0) (scripted [] 404 (31 * Second)) 1 demo_id None start_world
    (Wrapf "failed to get response: " ErrNoCaptionsFound)
    {| now := 31000000000; sent := [player_request demo_id defaultUA]; draws := 1 |}.
Proof.
  apply (download_failure_kinds (fun _ => 0) (scripted [] 404 (31 * Second))
           1 demo_id None start_world
           {| now := 31000000000; sent := [player_request demo_id defaultUA]; draws := 1 |}
           (Wrapf "failed to get response: " ErrNoCaptionsFound)).
  vm_compute. reflexivity.
Defined.

(** On a server that answers 404, no download ends in a bare
    [ErrNoCaptionsFound], whatever came before. *)
Lemma not_found_is_wrapped (unrepresentable : float64 -> Z) (codes : list Z) (delay : Duration)
      (fuel : nat) (videoID : string) (opts : option Options) (w w' : World) :
  (forall k, (List.length (sent w) <= k)%nat -> nth k codes 404 <> 200) ->
  DownloadWithContext unrepresentable (scripted codes 404 delay) fuel videoID opts w
  <> Some (Err ErrNoCaptionsFound, w').
Proof.
  intros Hc H. apply DownloadWithContext_failure in H.
  destruct H as [(_ & K & _) | (_ & _ & [H | (t & w1 & H1 & H)])].
  - discriminate K.
  - destruct H as [(resp & cause & _ & K) | (n & rsp & _ & Hs & H200 & _)];
      [discriminate K | ].
    simpl in Hs. unfold answer in Hs. injection Hs as <-. simpl in H200.
    apply (Hc (List.length (sent w) + n)%nat); [lia | exact H200].
  - destruct H as [(_ & _ & K) | [(_ & resp & cause & _ & K) | (_ & m & rsp & _ & _ & _ & K)]];
      try discriminate K.
    destruct K as [(_ & K) | (_ & _ & K)]; discriminate K.
Qed.

(** ** Listing the tracks *)

(** X9. [GetAvailableTracksWithContext] checks the identifier before
    anything else (an invalid one costs no request), and a list it returns
    is never empty: it is the list decoded from a 200 reply to the player
    request, the only request it sends. *)
Theorem available_tracks_outcomes (unrepresentable : float64 -> Z) (env : Env) (fuel : nat)
        (videoID : string) (w : World) :
  (forall e, validateVideoID videoID = Some e ->
             GetAvailableTracksWithContext unrepresentable env fuel videoID w = Some (Err e, w))
  /\ (forall tracks w',
         GetAvailableTracksWithContext unrepresentable env fuel videoID w = Some (Ok tracks, w') ->
         tracks <> []
         /\ exists (n : nat) (rsp : Response),
             sent w' = sent w ++ repeat (player_request videoID defaultUA) (S n)
             /\ serve env (List.length (sent w) + n) (player_request videoID defaultUA)
                = DoResponse rsp
             /\ StatusCode rsp = 200
             /\ player_json (RespBody rsp) = Some tracks).
Proof.
  unfold GetAvailableTracksWithContext. split.
  - intros e ->. reflexivity.
  - intros tracks w'.
    destruct (validateVideoID videoID); [discriminate | ].
    change (UserAgent DefaultOptions) with defaultUA.
    fold (player_request videoID defaultUA).
    destruct (makeRequestWithRetry _ _ _ _ _ _) as [[[resp err] w1]|] eqn:E; [ | discriminate].
    destruct err as [e|]; [destruct resp; discriminate | ].
    apply makeRequestWithRetry_trace in E.
    destruct E as (n & Hs & _ & H). destruct (H eq_refl) as (rsp & -> & Hc & Hsv).
    intros K. injection K as K <-.
    apply extractCaptionTracks_ok in K as (_ & Hj & Hne).
    split; [exact Hne | ]. now exists n, rsp.
Qed.

Lemma available_tracks_outcomes_witness :
  GetAvailableTracksWithContext (fun _ => 0) (good_server demo_tracks demo_caption) 1
    "too-short" start_world = Some (Err ErrInvalidVideoID, start_world)
  /\ demo_tracks <> [].
Proof.
  split.
  - apply (proj1 (available_tracks_outcomes (fun _ => 0)
                    (good_server demo_tracks demo_caption) 1 "too-short" start_world)).
    reflexivity.
  - apply (proj2 (available_tracks_outcomes (fun _ => 0)
                    (good_server demo_tracks demo_caption) 1 demo_id start_world)
             demo_tracks
             {| now := 0; sent := [player_request demo_id defaultUA]; draws := 0 |}).
    vm_compute. reflexivity.
Defined.

(** ** The older pipeline of caption.go *)

Lemma find_first_match {A : Type} (p : A -> bool) (l : list A) (t : A) :
  find p l = Some t -> first_match p l t.
Proof.
  induction l as [|x l IH]; simpl; [discriminate | ].
  destruct (p x) eqn:E.
  - intros H. injection H as <-. exists [], l. now repeat split.
  - intros H. destruct (IH H) as (l1 & l2 & -> & Hp & Hf).
    exists (x :: l1), l2. repeat split; [exact Hp | now constructor].
Qed.

Lemma find_en_asr_find (tracks : list CaptionTrack) :
  LegacyPipeline.find_en_asr tracks
  = option_map (fun t => BaseURL t +++ "&fmt=json3") (find (tier1 "en" "asr") tracks).
Proof.
  induction tracks as [|t tracks IH]; simpl; [reflexivity | ].
  unfold tier1 at 1, has_url.
  destruct ((LanguageCode t =? "en")%string && (Kind t =? "asr")%string); simpl; [ | exact IH].
  destruct (BaseURL t =? "")%string; simpl; [exact IH | reflexivity].
Qed.

(** X10. For the default request (en, asr) the selector of the current
    library agrees with the one of caption.go wherever the older one
    finds a track: the URL caption.go would fetch is the URL of the track
    the current selector returns, with [&fmt=json3] appended.  The older
    selector has no fallback: it finds nothing unless a track is en/asr
    with a URL. *)
Theorem selector_extends_legacy (tracks : list CaptionTrack) :
  (forall url, LegacyPipeline.find_en_asr tracks = Some url ->
               exists t, findCaptionTrack tracks DefaultOptions = Ok t
                         /\ url = BaseURL t +++ "&fmt=json3"
                         /\ LanguageCode t = "en" /\ Kind t = "asr")
  /\ (LegacyPipeline.find_en_asr tracks = None <->
      forall t, In t tracks -> LanguageCode t = "en" -> Kind t = "asr" -> BaseURL t = "").
Proof.
  rewrite find_en_asr_find. split.
  - intros url H. unfold findCaptionTrack. rewrite find_language_kind_find. simpl.
    destruct (find (tier1 "en" "asr") tracks) as [t|] eqn:E; [ | discriminate H].
    injection H as <-. exists t. apply find_some in E as [_ Ht]. unfold tier1 in Ht.
    apply andb_true_iff in Ht as [Ht _]. apply andb_true_iff in Ht as [Ha Hb].
    apply String.eqb_eq in Ha, Hb. now repeat split.
  - split.
    + intros H t Hin Hl Hk.
      destruct (find (tier1 "en" "asr") tracks) as [t1|] eqn:E; [discriminate H | ].
      pose proof (find_none _ _ E t Hin) as N. unfold tier1 in N.
      rewrite Hl, Hk in N. simpl in N. now apply has_url_false.
    + intros H. destruct (find (tier1 "en" "asr") tracks) as [t1|] eqn:E; [ | reflexivity].
      exfalso. apply find_some in E as [Hin Ht]. unfold tier1 in Ht.
      apply andb_true_iff in Ht as [Ht Hu]. apply andb_true_iff in Ht as [Ha Hb].
      apply String.eqb_eq in Ha, Hb. apply has_url_true in Hu. apply Hu. now apply H.
Qed.

Section LegacyFacts.

Variable unrepresentable : float64 -> Z.
Variable env : Env.

Lemma Legacy_makeRequestWithRetry_sent (fuel : nat) (req : Request) (w w' : World)
      (resp : option Response) (err : option error) :
  Legacy.makeRequestWithRetry unrepresentable env fuel req w = Some (resp, err, w') ->
  exists n : nat, sent w' = sent w ++ repeat req (S n).
Proof.
  unfold Legacy.makeRequestWithRetry, Retry. intros H.
  destruct (Retry_loop unrepresentable env fuel _ _ _ _) as [[[e r] w1]|] eqn:E;
    [ | discriminate H].
  injection H as -> -> ->.
  apply (Retry_loop_trace unrepresentable env req) in E.
  - destruct E as (n & Hs & _). now exists n.
  - intros r0 w0 e0 r1 w1 Hop. now apply Legacy_operation_world in Hop.
Qed.

(** X11. [Download] of caption.go does not look at the identifier: whenever
    it returns, with a caption or with an error, it has sent the player
    request for that identifier, the empty one included. *)
Theorem legacy_download_always_asks (fuel : nat) (videoId : string) (w w' : World)
        (r : result Caption) :
  LegacyPipeline.Download unrepresentable env fuel videoId w = Some (r, w') ->
  exists rest,
    sent w' = sent w ++ player_request videoId LegacyPipeline.legacyUA :: rest.
Proof.
  unfold LegacyPipeline.Download, LegacyPipeline.requestCaptionUrl.
  fold (player_request videoId LegacyPipeline.legacyUA).
  destruct (Legacy.makeRequestWithRetry _ _ _ _ _) as [[[resp err] w1]|] eqn:E1;
    [ | discriminate].
  apply Legacy_makeRequestWithRetry_sent in E1. destruct E1 as (n & Hs1).
  assert (G : forall u w2 r2,
             Legacy.requestTimedText unrepresentable env fuel u w1 = Some (r2, w2) ->
             exists rest,
               sent w2 = sent w ++ player_request videoId LegacyPipeline.legacyUA :: rest).
  { intros u w2 r2. unfold Legacy.requestTimedText.
    destruct (valid_url env u); simpl.
    - destruct (Legacy.makeRequestWithRetry _ _ _ _ _) as [[[resp2 err2] w3]|] eqn:E2;
        [ | discriminate].
      apply Legacy_makeRequestWithRetry_sent in E2. destruct E2 as (m & Hs2).
      intros K.
      assert (Hw : w2 = w3).
      { destruct err2 as [e|]; [destruct resp2; now injection K as _ <- | ].
        destruct resp2 as [rsp|]; [ | discriminate K].
        destruct (negb (StatusCode rsp =? 200)); [now injection K as _ <- | ].
        destruct (negb (readable (RespBody rsp))); [now injection K as _ <- | ].
        destruct (caption_json (RespBody rsp)); now injection K as _ <-. }
      subst w3. eexists. rewrite Hs2, Hs1. simpl. rewrite <- app_assoc. reflexivity.
    - intros K. injection K as _ <-. eexists. rewrite Hs1. reflexivity. }
  destruct err as [e|].
  - intros K. eexists.
    replace w' with w1 by (destruct resp; now injection K as _ <-).
    rewrite Hs1. reflexivity.
  - destruct resp as [rsp|]; [ | discriminate].
    destruct (negb (StatusCode rsp =? 200)).
    + intros K. injection K as _ <-. eexists. rewrite Hs1. reflexivity.
    + destruct (LegacyPipeline.extractCaptionUrl rsp) as [url|e].
      * destruct (Legacy.requestTimedText _ _ _ _ _) as [[[c|e2] w2]|] eqn:E2;
          [ | | discriminate].
        -- intros K. injection K as _ <-. now apply G in E2.
        -- intros K. injection K as _ <-. now apply G in E2.
      * intros K. injection K as _ <-. eexists. rewrite Hs1. reflexivity.
Qed.

End LegacyFacts.

Lemma legacy_download_always_asks_witness :
  exists rest,
    sent {| now := 0; sent := [player_request "" LegacyPipeline.legacyUA]; draws := 0 |}
    = sent start_world ++ player_request "" LegacyPipeline.legacyUA :: rest.
Proof.
  apply (legacy_download_always_asks (fun _ => 0) (scripted [404] 200 0) 1 "" start_world
           {| now := 0; sent := [player_request "" LegacyPipeline.legacyUA]; draws := 0 |}
           (Err (Errorf "request returned status 404"))).
  vm_compute. reflexivity.
Defined.

(** ** Plain text *)

Ltac split_match :=
  repeat match goal with
    | |- context [match ?x with _ => _ end] => is_var x; destruct x
    end.

Lemma space2_bytes (a b : ascii) :
  space2 a b = true -> byte_val a = 194%N /\ (128 <= byte_val b)%N.
Proof.
  unfold space2. generalize (byte_val a) (byte_val b). intros x y.
  split_match; intros H; try discriminate H; split; reflexivity || (vm_compute; discriminate).
Qed.

Lemma space3_bytes (a b c : ascii) :
  space3 a b c = true ->
  (225 <= byte_val a)%N /\ (128 <= byte_val b)%N /\ (128 <= byte_val c)%N.
Proof.
  unfold space3. generalize (byte_val a) (byte_val b) (byte_val c). intros x y z.
  split_match; intros H; try discriminate H.
  all: repeat split; try (vm_compute; discriminate).
  apply N.leb_le. destruct (128 <=? z)%N eqn:E; [reflexivity | ].
  simpl in H.
  repeat (apply orb_true_iff in H as [H | H]); apply N.eqb_eq in H; subst z; discriminate E.
Qed.

Lemma space2_SP_r (x : ascii) : space2 x SP = false.
Proof.
  destruct (space2 x SP) eqn:E; [ | reflexivity].
  apply space2_bytes in E as [_ E]. vm_compute in E. now contradiction E.
Qed.

Lemma space2_SP_l (x : ascii) : space2 SP x = false.
Proof.
  destruct (space2 SP x) eqn:E; [ | reflexivity].
  apply space2_bytes in E as [E _]. discriminate E.
Qed.

Lemma space3_SP_1 (x y : ascii) : space3 SP x y = false.
Proof.
  destruct (space3 SP x y) eqn:E; [ | reflexivity].
  apply space3_bytes in E as (E & _ & _). vm_compute in E. now contradiction E.
Qed.

Lemma space3_SP_2 (x y : ascii) : space3 x SP y = false.
Proof.
  destruct (space3 x SP y) eqn:E; [ | reflexivity].
  apply space3_bytes in E as (_ & E & _). vm_compute in E. now contradiction E.
Qed.

Lemma space3_SP_3 (x y : ascii) : space3 x y SP = false.
Proof.
  destruct (space3 x y SP) eqn:E; [ | reflexivity].
  apply space3_bytes in E as (_ & _ & E). vm_compute in E. now contradiction E.
Qed.

Section TrimSeparator.

Variable sp1 : ascii -> bool.
Variable sp2 : ascii -> ascii -> bool.
Variable sp3 : ascii -> ascii -> ascii -> bool.
Variable s : ascii.

Hypothesis sp2_s : forall x, sp2 x s = false.
Hypothesis sp3_s_mid : forall x y, sp3 x s y = false.
Hypothesis sp3_s_last : forall x y, sp3 x y s = false.

(** No white-space rune reaches across the end of [l] into a following
    byte [s] that ends none. *)
Lemma starts_space_before_separator (l r : list ascii) :
  l <> [] -> starts_space sp1 sp2 sp3 l = false ->
  starts_space sp1 sp2 sp3 (l ++ s :: r) = false.
Proof.
  destruct l as [|a [|b [|c l']]]; intros Hne H; simpl in *.
  - now contradiction Hne.
  - rewrite orb_false_r in H. rewrite H, sp2_s. simpl.
    destruct r; [reflexivity | apply sp3_s_mid].
  - rewrite orb_false_r in H. apply orb_false_iff in H as [-> ->]. simpl. apply sp3_s_last.
  - exact H.
Qed.

End TrimSeparator.

Lemma list_ascii_of_string_append (a b : string) :
  list_ascii_of_string (a +++ b) = list_ascii_of_string a ++ list_ascii_of_string b.
Proof. induction a as [|c a IH]; simpl; [reflexivity | now rewrite IH]. Qed.

(** The bytes of a trimmed text: some, with no white space at either end. *)
Lemma trimmed_text_ends (t : string) :
  trimmed_text t ->
  let l := list_ascii_of_string t in
  l <> []
  /\ starts_space space1 space2 space3 l = false
  /\ starts_space space1 (fun a b => space2 b a) (fun a b c => space3 c b a) (rev l) = false.
Proof.
  intros [Hne Ht] l.
  assert (Hl : trimRight (trimLeft l) = l).
  { unfold TrimSpace in Ht. fold l in Ht.
    rewrite <- (list_ascii_of_string_of_list_ascii (trimRight (trimLeft l))), Ht.
    reflexivity. }
  destruct (trim_head_suffix space1 space2 space3 l) as (p & Hp). fold (trimLeft l) in Hp.
  destruct (trimRight_prefix (trimLeft l)) as (q & Hq).
  assert (Hlen : (List.length p + List.length q = 0)%nat).
  { pose proof (f_equal (@List.length ascii) Hp) as L1.
    pose proof (f_equal (@List.length ascii) Hq) as L2.
    rewrite length_app in L1, L2. rewrite Hl in L2. lia. }
  assert (p = []) by (destruct p; [reflexivity | simpl in Hlen; lia]). subst p.
  simpl in Hp.
  repeat split.
  - intros E. apply Hne. rewrite <- (string_of_list_ascii_of_string t). fold l. now rewrite E.
  - rewrite Hp. apply trim_head_free.
  - rewrite <- Hp in Hl. unfold trimRight in Hl.
    apply (f_equal (@rev ascii)) in Hl. rewrite rev_involutive in Hl.
    rewrite <- Hl. apply trim_head_free.
Qed.

Lemma join_trimmed_ends (texts : list string) :
  texts <> [] -> Forall trimmed_text texts ->
  let l := list_ascii_of_string (join " " texts) in
  l <> []
  /\ starts_space space1 space2 space3 l = false
  /\ starts_space space1 (fun a b => space2 b a) (fun a b c => space3 c b a) (rev l) = false.
Proof.
  induction texts as [|t rest IH]; intros Hne Hall; [now contradiction Hne | ].
  apply Forall_cons_iff in Hall as [Ht Hrest].
  destruct (trimmed_text_ends t Ht) as (H1 & H2 & H3).
  destruct rest as [|t2 rest]; [simpl; now repeat split | ].
  destruct (IH ltac:(discriminate) Hrest) as (G1 & G2 & G3).
  change (join " " (t :: t2 :: rest)) with (t +++ " " +++ join " " (t2 :: rest)).
  cbv zeta. rewrite !list_ascii_of_string_append.
  change (list_ascii_of_string " ") with [SP]. simpl app at 2.
  repeat split.
  - destruct (list_ascii_of_string t); [now contradiction H1 | discriminate].
  - apply starts_space_before_separator; auto using space2_SP_r, space3_SP_2, space3_SP_3.
  - rewrite rev_app_distr. simpl rev. rewrite <- app_assoc. simpl app.
    apply starts_space_before_separator; auto using space2_SP_l, space3_SP_2, space3_SP_1.
    intros E. apply G1. apply (f_equal (@rev ascii)) in E. now rewrite rev_involutive in E.
Qed.

Lemma spaced_join (texts : list string) :
  texts <> [] -> spaced texts = join " " texts +++ " ".
Proof.
  induction texts as [|t rest IH]; intros Hne; [now contradiction Hne | ].
  destruct rest as [|t2 rest]; [reflexivity | ].
  change (spaced (t :: t2 :: rest)) with (t +++ " " +++ spaced (t2 :: rest)).
  change (join " " (t :: t2 :: rest)) with (t +++ " " +++ join " " (t2 :: rest)).
  rewrite IH by discriminate. now rewrite !append_assoc.
Qed.

Lemma TrimSpace_spaced (texts : list string) :
  Forall trimmed_text texts -> TrimSpace (spaced texts) = join " " texts.
Proof.
  intros Hall. destruct texts as [|t rest]; [reflexivity | ].
  rewrite spaced_join by discriminate.
  destruct (join_trimmed_ends (t :: rest) ltac:(discriminate) Hall) as (G1 & G2 & G3).
  set (J := join " " (t :: rest)) in *.
  unfold TrimSpace. rewrite list_ascii_of_string_append.
  change (list_ascii_of_string " ") with [SP].
  unfold trimLeft. rewrite trim_head_stable.
  - unfold trimRight. rewrite rev_app_distr. simpl rev. simpl app.
    change (trim_head space1 (fun a b => space2 b a) (fun a b c => space3 c b a)
              (SP :: rev (list_ascii_of_string J)))
      with (trim_head space1 (fun a b => space2 b a) (fun a b c => space3 c b a)
              (rev (list_ascii_of_string J))).
    rewrite trim_head_stable by exact G3.
    rewrite rev_involutive. apply string_of_list_ascii_of_string.
  - apply starts_space_before_separator; auto using space2_SP_r, space3_SP_2, space3_SP_3.
Qed.

Lemma plain_text_loop (subs : list SubtitleText) (acc : string) :
  fold_left (fun result sub => (result +++ Text sub) +++ " ") subs acc
  = acc +++ spaced (map Text subs).
Proof.
  revert acc. induction subs as [|sub subs IH]; intros acc; simpl.
  - symmetry. apply append_nil_r.
  - rewrite IH. now rewrite !append_assoc.
Qed.

(** X12. The plain text is the texts of the spans, in their order, with
    exactly one space between two of them and nothing before or after:
    the trimming at the end removes the last space and nothing else. *)
Theorem plain_text_is_joined {sorter : SliceSorter} (c : Caption) :
  GetPlainText c = join " " (map Text (GetSubtitleText c)).
Proof.
  unfold GetPlainText. rewrite plain_text_loop. simpl.
  apply TrimSpace_spaced.
  apply Forall_map.
  assert (Hout : Forall well_formed_span (GetSubtitleText c)).
  { unfold GetSubtitleText.
    apply (Permutation_Forall (Permutation_sym (sort_Slice_perm _ less_StartTime _))).
    apply event_loop_well_formed. }
  apply (Forall_impl _ (P := well_formed_span)); [ | exact Hout].
  intros sp (_ & H1 & H2 & _). now split.
Qed.

(** ** SRT and VTT text *)

Lemma append_empty (a b : string) : a +++ b = "" -> a = "" /\ b = "".
Proof. destruct a; simpl; [now split | discriminate]. Qed.

Lemma append_same_l (a x : string) : a +++ x = a -> x = "".
Proof.
  induction a as [|c a IH]; simpl; [now intros -> | ].
  intros H. injection H as H. now apply IH.
Qed.

Lemma srt_block_not_empty (unrepresentable : float64 -> Z) (k : Z) (sub : SubtitleText) (rest : string) :
  srt_block unrepresentable k sub +++ rest <> "".
Proof.
  unfold srt_block. intros H.
  apply append_empty in H as [H _]. apply append_empty in H as [_ H].
  discriminate H.
Qed.

Lemma vtt_block_not_empty (unrepresentable : float64 -> Z) (sub : SubtitleText) (rest : string) :
  vtt_block unrepresentable sub +++ rest <> "".
Proof.
  unfold vtt_block. intros H.
  apply append_empty in H as [H _].
  apply append_empty in H as [_ H]. apply append_empty in H as [H _]. discriminate H.
Qed.

Section Blocks.

Context {sorter : SliceSorter}.
Variable unrepresentable : float64 -> Z.

Lemma GetSRT_loop_blocks (subs : list SubtitleText) (i : Z) (acc : string) :
  GetSRT_loop unrepresentable i subs acc = acc +++ srt_blocks unrepresentable i subs.
Proof.
  revert i acc. induction subs as [|sub subs IH]; intros i acc;
    cbn [GetSRT_loop srt_blocks].
  - symmetry. apply append_nil_r.
  - rewrite IH. unfold srt_block. now rewrite !append_assoc.
Qed.

Lemma GetVTT_loop_blocks (subs : list SubtitleText) (acc : string) :
  GetVTT_loop unrepresentable subs acc = acc +++ vtt_blocks unrepresentable subs.
Proof.
  revert acc. induction subs as [|sub subs IH]; intros acc;
    cbn [GetVTT_loop vtt_blocks].
  - symmetry. apply append_nil_r.
  - rewrite IH. unfold vtt_block. now rewrite !append_assoc.
Qed.

(** X13. The SRT text is one block per span, in the order of the spans:
    the number of the span counted from 1, the two time codes, the text
    and a blank line.  The VTT text is the header and a blank line, then
    the same blocks without the number.  The SRT text is empty, and the
    VTT text the bare header, exactly when there is no span. *)
Theorem srt_and_vtt_blocks (c : Caption) :
  GetSRT unrepresentable c = srt_blocks unrepresentable 0 (GetSubtitleText c)
  /\ GetVTT unrepresentable c
     = "WEBVTT" +++ newline +++ newline +++ vtt_blocks unrepresentable (GetSubtitleText c)
  /\ (forall i, 0 <= i < 2 ^ 63 - 1 -> int_add i 1 = i + 1)
  /\ (GetSRT unrepresentable c = "" <-> GetSubtitleText c = [])
  /\ (GetVTT unrepresentable c = "WEBVTT" +++ newline +++ newline <-> GetSubtitleText c = []).
Proof.
  assert (HS : GetSRT unrepresentable c = srt_blocks unrepresentable 0 (GetSubtitleText c)).
  { unfold GetSRT. rewrite GetSRT_loop_blocks. reflexivity. }
  assert (HV : GetVTT unrepresentable c
               = ("WEBVTT" +++ newline +++ newline)
                   +++ vtt_blocks unrepresentable (GetSubtitleText c)).
  { unfold GetVTT. rewrite GetVTT_loop_blocks. reflexivity. }
  split; [exact HS | split; [rewrite HV; now rewrite !append_assoc | split; [ | split ]]].
  - intros i Hi. unfold int_add, wrap64.
    rewrite Z.mod_small by lia. lia.
  - rewrite HS. destruct (GetSubtitleText c) as [|sub subs]; cbn [srt_blocks].
    + split; reflexivity.
    + split; [intros H; now apply srt_block_not_empty in H | discriminate].
  - rewrite HV. destruct (GetSubtitleText c) as [|sub subs]; cbn [vtt_blocks].
    + split; reflexivity.
    + split; [ | discriminate].
      intros H. apply append_same_l in H. now apply vtt_block_not_empty in H.
Qed.

(** ** Counting and reordering *)

Lemma Permutation_filter_compat {A : Type} (f : A -> bool) (l l' : list A) :
  Permutation l l' -> Permutation (filter f l) (filter f l').
Proof.
  induction 1 as [|x l l' _ IH|x y l|l l' l'' _ IH1 _ IH2]; simpl.
  - constructor.
  - destruct (f x); [now constructor | exact IH].
  - destruct (f x), (f y); try reflexivity. apply perm_swap.
  - now transitivity (filter f l').
Qed.

Lemma GetSubtitleText_perm (c : Caption) :
  Permutation (GetSubtitleText c) (map built_span (filter gives_span (Events c))).
Proof.
  unfold GetSubtitleText. rewrite event_loop_spec. simpl. apply sort_Slice_perm.
Qed.

(** X14. An event gives at most one span: there are as many spans as
    events with a segment and a non-empty trimmed text, never more spans
    than events. *)
Theorem span_count (c : Caption) :
  List.length (GetSubtitleText c) = List.length (filter gives_span (Events c))
  /\ (List.length (GetSubtitleText c) <= List.length (Events c))%nat.
Proof.
  pose proof (Permutation_length (GetSubtitleText_perm c)) as H.
  rewrite length_map in H. split; [exact H | ].
  rewrite H. apply filter_length_le.
Qed.

(** X15. The spans do not depend on the order of the events in the
    payload: two captions with the same events in another order give the
    same spans, up to the order among them. *)
Theorem spans_ignore_event_order (c1 c2 : Caption) :
  Permutation (Events c1) (Events c2) ->
  Permutation (GetSubtitleText c1) (GetSubtitleText c2).
Proof.
  intros H.
  rewrite (GetSubtitleText_perm c1), (GetSubtitleText_perm c2).
  apply Permutation_map, Permutation_filter_compat, H.
Qed.

End Blocks.

Lemma spans_ignore_event_order_witness :
  Permutation (@GetSubtitleText insertion_sorter {| Events := [hello_world; early_segment] |})
              (@GetSubtitleText insertion_sorter {| Events := [early_segment; hello_world] |}).
Proof.
  apply (@spans_ignore_event_order insertion_sorter
           {| Events := [hello_world; early_segment] |}
           {| Events := [early_segment; hello_world] |}).
  apply perm_swap.
Defined.

(** ** The older pipeline: a download that succeeds *)

Section LegacySuccess.

Variable unrepresentable : float64 -> Z.
Variable env : Env.

(** X16. A download of caption.go that succeeds has sent the player
    request one or more times; the server's answer [rsp1] to the last of
    them has status 200 and decodes to a track list, whose first en/asr
    track with a URL is [t]; the GET of that URL with [&fmt=json3]
    appended was then sent one or more times, and the caption returned is
    the one decoded from the server's answer [rsp2] to the last GET, a
    200.  Both statuses are checked by the callers, the transport does
    not. *)
Theorem legacy_download_success_protocol (fuel : nat) (videoId : string) (w w' : World)
        (caption : Caption) :
  LegacyPipeline.Download unrepresentable env fuel videoId w = Some (Ok caption, w') ->
  exists (n m : nat) (tracks : list CaptionTrack) (t : CaptionTrack) (rsp1 rsp2 : Response),
    sent w' = sent w ++ repeat (player_request videoId LegacyPipeline.legacyUA) (S n)
                     ++ repeat (legacy_caption_request (BaseURL t +++ "&fmt=json3")) (S m)
    /\ serve env (List.length (sent w) + n) (player_request videoId LegacyPipeline.legacyUA)
       = DoResponse rsp1
    /\ StatusCode rsp1 = 200
    /\ player_json (RespBody rsp1) = Some tracks
    /\ LegacyPipeline.find_en_asr tracks = Some (BaseURL t +++ "&fmt=json3")
    /\ first_match (tier1 "en" "asr") tracks t
    /\ In t tracks /\ LanguageCode t = "en" /\ Kind t = "asr" /\ BaseURL t <> ""
    /\ serve env (List.length (sent w) + S n + m)
         (legacy_caption_request (BaseURL t +++ "&fmt=json3"))
       = DoResponse rsp2
    /\ StatusCode rsp2 = 200
    /\ caption_json (RespBody rsp2) = Some caption.
Proof.
  unfold LegacyPipeline.Download, LegacyPipeline.requestCaptionUrl.
  fold (player_request videoId LegacyPipeline.legacyUA).
  destruct (Legacy.makeRequestWithRetry _ _ _ _ _) as [[[resp err] w1]|] eqn:E1;
    [ | discriminate].
  destruct err as [e|]; [destruct resp; discriminate | ].
  apply Legacy_makeRequestWithRetry_nil in E1.
  destruct E1 as (rsp1 & n & -> & _ & _ & Hs1 & Hv1).
  destruct (StatusCode rsp1 =? 200) eqn:Ec1; simpl; [ | discriminate].
  apply Z.eqb_eq in Ec1.
  unfold LegacyPipeline.extractCaptionUrl.
  destruct (readable (RespBody rsp1)); simpl; [ | discriminate].
  destruct (player_json (RespBody rsp1)) as [tracks|] eqn:Ej1; [ | discriminate].
  pose proof (find_en_asr_find tracks) as Hfe. rewrite Hfe.
  destruct (find (tier1 "en" "asr") tracks) as [t|] eqn:Ef; simpl; [ | discriminate].
  simpl in Hfe.
  pose proof (find_first_match _ _ _ Ef) as Hfirst.
  apply find_some in Ef as [Hin Ht]. unfold tier1 in Ht.
  apply andb_true_iff in Ht as [Ht Hu]. apply andb_true_iff in Ht as [Ha Hb].
  apply String.eqb_eq in Ha, Hb. apply has_url_true in Hu.
  unfold Legacy.requestTimedText.
  fold (legacy_caption_request (BaseURL t +++ "&fmt=json3")).
  destruct (valid_url env _); simpl; [ | discriminate].
  destruct (Legacy.makeRequestWithRetry _ _ _ _ _) as [[[resp2 err2] w2]|] eqn:E2;
    [ | discriminate].
  destruct err2 as [e|]; [destruct resp2; discriminate | ].
  apply Legacy_makeRequestWithRetry_nil in E2.
  destruct E2 as (rsp2 & m & -> & _ & _ & Hs2 & Hv2).
  destruct (StatusCode rsp2 =? 200) eqn:Ec2; simpl; [ | discriminate].
  apply Z.eqb_eq in Ec2.
  destruct (readable (RespBody rsp2)); simpl; [ | discriminate].
  destruct (caption_json (RespBody rsp2)) as [c|] eqn:Ej2; [ | discriminate].
  intros K. injection K as <- <-.
  exists n, m, tracks, t, rsp1, rsp2.
  split; [rewrite Hs2, Hs1, <- app_assoc; reflexivity | ].
  split; [exact Hv1 | ].
  split; [exact Ec1 | ].
  split; [exact Ej1 | ].
  split; [exact Hfe | ].
  split; [exact Hfirst | ].
  split; [exact Hin | ].
  split; [exact Ha | ].
  split; [exact Hb | ].
  split; [exact Hu | ].
  split; [ | now split].
  rewrite Hs1, length_app, repeat_length in Hv2. exact Hv2.
Qed.

End LegacySuccess.

Lemma legacy_download_success_protocol_witness :
  exists (n m : nat) (tracks : list CaptionTrack) (t : CaptionTrack) (rsp1 rsp2 : Response),
    sent {| now := 0;
            sent := [player_request demo_id LegacyPipeline.legacyUA;
                     legacy_caption_request "https://example.invalid/tt?v=1&lang=en&fmt=json3"];
            draws := 0 |}
    = sent start_world ++ repeat (player_request demo_id LegacyPipeline.legacyUA) (S n)
                       ++ repeat (legacy_caption_request (BaseURL t +++ "&fmt=json3")) (S m)
    /\ serve (good_server demo_tracks demo_caption) (List.length (sent start_world) + n)
         (player_request demo_id LegacyPipeline.legacyUA)
       = DoResponse rsp1
    /\ StatusCode rsp1 = 200
    /\ player_json (RespBody rsp1) = Some tracks
    /\ LegacyPipeline.find_en_asr tracks = Some (BaseURL t +++ "&fmt=json3")
    /\ first_match (tier1 "en" "asr") tracks t
    /\ In t tracks /\ LanguageCode t = "en" /\ Kind t = "asr" /\ BaseURL t <> ""
    /\ serve (good_server demo_tracks demo_caption) (List.length (sent start_world) + S n + m)
         (legacy_caption_request (BaseURL t +++ "&fmt=json3"))
       = DoResponse rsp2
    /\ StatusCode rsp2 = 200
    /\ caption_json (RespBody rsp2) = Some demo_caption.
Proof.
  apply (legacy_download_success_protocol (fun _ => 0) (good_server demo_tracks demo_caption)
           1 demo_id start_world
           {| now := 0;
              sent := [player_request demo_id LegacyPipeline.legacyUA;
                       legacy_caption_request "https://example.invalid/tt?v=1&lang=en&fmt=json3"];
              draws := 0 |}
           demo_caption).
  vm_compute. reflexivity.
Defined.

(** ** The spans and the sorting routine *)

Lemma strict_weak_on_perm {A : Type} (less : A -> A -> bool) (l l' : list A) :
  Permutation l l' -> strict_weak_on less l -> strict_weak_on less l'.
Proof.
  intros Hp (H1 & H2 & H3).
  assert (Hin : forall x, In x l' -> In x l)
    by (intros x; apply Permutation_in; now symmetry).
  repeat split.
  - intros x Hx. apply H1; auto.
  - intros x y z Hx Hy Hz. apply H2; auto.
  - intros x y z Hx Hy Hz. apply H3; auto.
Qed.

Lemma insertion_sort_rev_perm {A : Type} (less : A -> A -> bool) (l : list A) :
  Permutation (insertion_sort_rev less l) l.
Proof.
  unfold insertion_sort_rev. rewrite insertion_sort_perm. symmetry. apply Permutation_rev.
Qed.

Lemma insertion_sort_rev_sorted {A : Type} (less : A -> A -> bool) (l : list A) :
  strict_weak_on less l -> sorted_by less (insertion_sort_rev less l).
Proof.
  intros H. apply insertion_sort_sorted.
  apply (strict_weak_on_perm less l); [apply Permutation_rev | exact H].
Qed.

#[export] Instance insertion_sorter_rev : SliceSorter | 10 := {|
  sort_Slice := @insertion_sort_rev;
  sort_Slice_perm := @insertion_sort_rev_perm;
  sort_Slice_sorted := @insertion_sort_rev_sorted
|}.

Lemma f64_eq_of_not_lt (x y : float64) :
  is_nan x = false -> is_nan y = false ->
  f64_lt x y = false -> f64_lt y x = false -> f64_eq x y = true.
Proof.
  intros Hx Hy. unfold f64_lt, f64_eq, SFltb, SFeqb, SFcompare.
  destruct x as [sx|sx| |sx mx ex]; try discriminate;
    destruct y as [sy|sy| |sy my ey]; try discriminate;
    try destruct sx; try destruct sy; split_compare; simpl;
    intros K1 K2; try discriminate; try reflexivity; try lia.
Qed.

(** Two orderings of the same elements are the same list when the order
    leaves no two of the elements undecided. *)
Lemma sorted_permutation_unique {A : Type} (less : A -> A -> bool) (l1 : list A) :
  forall l2 : list A,
    (forall a b, In a l1 -> In b l1 -> less a b = false -> less b a = false -> a = b) ->
    sorted_by less l1 -> sorted_by less l2 -> Permutation l1 l2 -> l1 = l2.
Proof.
  unfold sorted_by.
  induction l1 as [|a l1 IH]; intros l2 Hanti S1 S2 Hp.
  - apply Permutation_nil in Hp. now subst.
  - destruct l2 as [|b l2]; [symmetry in Hp; now apply Permutation_nil in Hp | ].
    apply StronglySorted_inv in S1 as [S1 Ha].
    apply StronglySorted_inv in S2 as [S2 Hb].
    rewrite Forall_forall in Ha, Hb.
    assert (Eab : a = b).
    { assert (Ia : In a (b :: l2)) by (apply (Permutation_in a Hp); now left).
      assert (Ib : In b (a :: l1))
        by (apply (Permutation_in b (Permutation_sym Hp)); now left).
      destruct Ia as [-> | Ia]; [reflexivity | ].
      destruct Ib as [-> | Ib]; [reflexivity | ].
      apply Hanti; [now left | now right | | ].
      - now apply Hb.
      - now apply Ha. }
    subst b. f_equal.
    apply IH; auto.
    + intros x y Hx Hy. apply Hanti; now right.
    + now apply Permutation_cons_inv in Hp.
Qed.

(** X17. When no two spans start together, the spans do not depend on the
    sorting routine: any two routines that meet the contract of
    [sort.Slice] give the same list. *)
Theorem spans_independent_of_sorter (s1 s2 : SliceSorter) (c : Caption) :
  (forall e1 e2, In e1 (Events c) -> In e2 (Events c) ->
                 gives_span e1 = true -> gives_span e2 = true ->
                 f64_eq (ms_to_sec (TStartMs e1)) (ms_to_sec (TStartMs e2)) = true ->
                 built_span e1 = built_span e2) ->
  @GetSubtitleText s1 c = @GetSubtitleText s2 c.
Proof.
  intros Hties. unfold GetSubtitleText.
  set (raw := fold_left event_step (Events c) []).
  assert (Hraw : Forall well_formed_span raw) by apply event_loop_well_formed.
  assert (Hsw : strict_weak_on less_StartTime raw) by now apply less_StartTime_strict_weak.
  apply (sorted_permutation_unique less_StartTime).
  - intros a b Ha Hb Hab Hba.
    assert (Ia : In a raw)
      by (apply (Permutation_in a (@sort_Slice_perm s1 _ less_StartTime raw)); exact Ha).
    assert (Ib : In b raw)
      by (apply (Permutation_in b (@sort_Slice_perm s1 _ less_StartTime raw)); exact Hb).
    unfold raw in Ia, Ib. rewrite event_loop_spec in Ia, Ib. simpl in Ia, Ib.
    apply in_map_iff in Ia as (e1 & <- & I1). apply in_map_iff in Ib as (e2 & <- & I2).
    apply filter_In in I1 as [I1 G1]. apply filter_In in I2 as [I2 G2].
    apply Hties; auto.
    unfold less_StartTime in Hab, Hba. simpl in Hab, Hba.
    apply f64_eq_of_not_lt; auto using ms_to_sec_not_nan.
  - apply sort_Slice_sorted, Hsw.
  - apply sort_Slice_sorted, Hsw.
  - rewrite (@sort_Slice_perm s1 _ less_StartTime raw). symmetry. apply sort_Slice_perm.
Qed.

Lemma spans_independent_of_sorter_witness :
  @GetSubtitleText insertion_sorter untied_caption
  = @GetSubtitleText insertion_sorter_rev untied_caption.
Proof.
  apply (spans_independent_of_sorter insertion_sorter insertion_sorter_rev untied_caption).
  intros e1 e2 [<- | [<- | []]] [<- | [<- | []]] _ _ H;
    try reflexivity; vm_compute in H; discriminate H.
Defined.

(** When two spans do start together their order is the routine's choice:
    the two routines above disagree on [tied_caption]. *)
Lemma tied_spans_depend_on_sorter :
  @GetSubtitleText insertion_sorter tied_caption
  <> @GetSubtitleText insertion_sorter_rev tied_caption.
Proof. vm_compute. discriminate. Qed.
